(** * In-place sorting demonstrations: bubble, selection and insertion sort

    The repository holds three stand-alone C++ programs.  Each one sorts a
    [std::array<int, 11>] in place:

    - [exercices/sorting-bubble-sort.cpp]     ([bubble_sort])
    - [exercices/sorting-selection-sort.cpp]  ([selection_sort])
    - [sorting/insertion-sort.cpp]            ([insertion_sort])

    The functions are embedded here as programs of a small state-and-error
    monad over the array, with the machine arithmetic of the source written
    out: indices are [size_t] values (64 bits, wrapping), [min] in
    [selection_sort] is an [int] (32 bits), and [operator[]] is a partial
    function of the index.  Two things are more general than in the source.
    The length [11] is not fixed: the functions are read at every length
    [N] of [std::array<int, N>].  And elements are compared through a [key],
    so that two elements with the same value can still be told apart when
    stability is stated; the source is the instance where an element is its
    own key.  The state carries three counters next to the array, for the
    statements about comparisons, swaps and passes. *)

From Stdlib Require Import ZifyBool.
From Stdlib Require DecimalString DecimalPos DecimalZ.
From stdpp Require Import base numbers list sorting strings.

Local Open Scope Z_scope.

(** ** Machine integers *)

(** [size_t]: unsigned, 64 bits. *)
Definition size_modulus : Z := 18446744073709551616.
Definition SIZE_MAX : Z := size_modulus - 1.

(** Result of unsigned arithmetic: reduced modulo [2^64]. *)
Definition wrap (z : Z) : Z := z mod size_modulus.

(** [int]: signed, 32 bits. *)
Definition int_modulus : Z := 4294967296.
Definition INT_MAX : Z := 2147483647.

(** Conversion of a [size_t] to [int] ([int min = i;]). *)
Definition to_int (z : Z) : Z := (z + 2147483648) mod int_modulus - 2147483648.

(** Conversion of an [int] to [size_t] (the index in [arr[min]], and the
    left operand of [min != i]). *)
Definition of_int (z : Z) : Z := wrap z.

(** ** Elements *)

(** What the code asks of an element: that [<] and [>] compare it.  The
    comparisons look at the [key] only. *)
Class Elem (T : Type) := key : T → Z.

(** The source: an [int] is its own key. *)
#[export] Instance int_elem : Elem Z := λ x, x.

(** An [int] that carries the position it had in the input.  The
    comparisons do not see the position. *)
#[export] Instance tagged_elem : Elem (Z * nat) := fst.

(** ** Outcome of a run *)

Inductive result (A : Type) : Type :=
| Ok (a : A)
| OutOfRange          (* an index outside the array was read or written *)
| OutOfFuel.          (* the step budget of the model ran out *)
Arguments Ok {A} a.
Arguments OutOfRange {A}.
Arguments OutOfFuel {A}.

Section Sorter.
Context {T : Type} `{Elem T}.

(** ** The array and the counters *)

(** [arr] is the array of the source.  [ncmp], [nswap] and [npass] are
    counters the source does not have: element comparisons, calls of
    [std::swap] and passes of the [do]-[while] loop of [bubble_sort]. *)
Record state : Type := State {
  arr : list T;
  ncmp : nat;
  nswap : nat;
  npass : nat
}.

Definition init (a : list T) : state := State a 0 0 0.

Definition M (A : Type) : Type := state → result (A * state).

Definition ret {A} (a : A) : M A := λ s, Ok (a, s).

Definition bind {A B} (m : M A) (k : A → M B) : M B :=
  λ s, match m s with
       | Ok (a, s') => k a s'
       | OutOfRange => OutOfRange
       | OutOfFuel => OutOfFuel
       end.

Definition out_of_fuel {A} : M A := λ _, OutOfFuel.

Notation "x <- m ;; k" := (bind m (λ x, k))
  (at level 100, m at next level, right associativity).
Notation "m ;;; k" := (bind m (λ _, k))
  (at level 100, right associativity).

(** [arr.size()] *)
Definition size : M Z := λ s, Ok (Z.of_nat (length (arr s)), s).

(** [arr[i]] read. *)
Definition load (i : Z) : M T :=
  λ s, if (0 <=? i) && (i <? Z.of_nat (length (arr s)))
       then match arr s !! Z.to_nat i with
            | Some x => Ok (x, s)
            | None => OutOfRange
            end
       else OutOfRange.

(** [arr[i] = v] *)
Definition store (i : Z) (v : T) : M unit :=
  λ s, if (0 <=? i) && (i <? Z.of_nat (length (arr s)))
       then Ok (tt, State (<[Z.to_nat i := v]> (arr s)) (ncmp s) (nswap s) (npass s))
       else OutOfRange.

Definition tick_cmp : M unit :=
  λ s, Ok (tt, State (arr s) (S (ncmp s)) (nswap s) (npass s)).
Definition tick_swap : M unit :=
  λ s, Ok (tt, State (arr s) (ncmp s) (S (nswap s)) (npass s)).
Definition tick_pass : M unit :=
  λ s, Ok (tt, State (arr s) (ncmp s) (nswap s) (S (npass s))).

(** [std::swap(arr[i], arr[j])] *)
Definition swap (i j : Z) : M unit :=
  x <- load i ;;
  y <- load j ;;
  store i y ;;;
  store j x ;;;
  tick_swap.

(** ** [bubble_sort] *)

(** The [for] loop of one pass, entered at [i] with the current value of
    [swapped]; it returns the value of [swapped] at the end of the pass. *)
Fixpoint bubble_for (fuel : nat) (end_ i : Z) (swapped : bool) : M bool :=
  match fuel with
  | O => out_of_fuel
  | S fuel' =>
    if i <? end_ then
      x <- load i ;;
      y <- load (wrap (i + 1)) ;;
      tick_cmp ;;;
      if key x >? key y then
        swap i (wrap (i + 1)) ;;;
        bubble_for fuel' end_ (wrap (i + 1)) true
      else
        bubble_for fuel' end_ (wrap (i + 1)) swapped
    else ret swapped
  end.

(** The [do { ... } while (swapped);] loop. *)
Fixpoint bubble_do (fuel : nat) (end_ : Z) : M unit :=
  match fuel with
  | O => out_of_fuel
  | S fuel' =>
    tick_pass ;;;
    swapped <- bubble_for fuel' end_ 0 false ;;
    let end_ := wrap (end_ - 1) in
    if swapped then bubble_do fuel' end_ else ret tt
  end.

Definition bubble_sort (fuel : nat) : M unit :=
  n <- size ;;
  bubble_do fuel (wrap (n - 1)).

(** ** [selection_sort] *)

(** The inner [for] loop, entered at [j] with the current [min]. *)
Fixpoint selection_inner (fuel : nat) (j min : Z) : M Z :=
  match fuel with
  | O => out_of_fuel
  | S fuel' =>
    n <- size ;;
    if j <? n then
      x <- load j ;;
      m <- load (of_int min) ;;
      tick_cmp ;;;
      let min := if key x <? key m then to_int j else min in
      selection_inner fuel' (wrap (j + 1)) min
    else ret min
  end.

(** The body of the outer loop at [i]. *)
Definition selection_body (fuel : nat) (i : Z) : M unit :=
  min <- selection_inner fuel (wrap (i + 1)) (to_int i) ;;
  if negb (of_int min =? i) then swap i (of_int min) else ret tt.

(** The outer [for] loop, entered at [i]. *)
Fixpoint selection_for (fuel : nat) (i : Z) : M unit :=
  match fuel with
  | O => out_of_fuel
  | S fuel' =>
    n <- size ;;
    if i <? n then
      selection_body fuel' i ;;;
      selection_for fuel' (wrap (i + 1))
    else ret tt
  end.

Definition selection_sort (fuel : nat) : M unit := selection_for fuel 0.

(** The outer loop stopped after [k] iterations: [selection_for] without
    its exit test, for the statements about the array between two
    iterations. *)
Fixpoint selection_prefix (k fuel : nat) (i : Z) : M unit :=
  match k, fuel with
  | O, _ => ret tt
  | S _, O => out_of_fuel
  | S k', S fuel' =>
    selection_body fuel' i ;;;
    selection_prefix k' fuel' (wrap (i + 1))
  end.

(** ** [insertion_sort] *)

(** The [while] loop, entered at [j].  The first operand of [&&] is
    [j >= 0] on a [size_t]; the second is evaluated when the first holds.
    The loop returns the value of [j] on exit. *)
Fixpoint insertion_while (fuel : nat) (j : Z) (temp : T) : M Z :=
  match fuel with
  | O => out_of_fuel
  | S fuel' =>
    if 0 <=? j then
      x <- load j ;;
      tick_cmp ;;;
      if key x >? key temp then
        y <- load j ;;
        store (wrap (j + 1)) y ;;;
        insertion_while fuel' (wrap (j - 1)) temp
      else ret j
    else ret j
  end.

(** The body of the outer loop at [i]. *)
Definition insertion_body (fuel : nat) (i : Z) : M unit :=
  temp <- load (wrap (i + 1)) ;;
  j <- insertion_while fuel i temp ;;
  store (wrap (j + 1)) temp.

(** The outer [for] loop, entered at [i]. *)
Fixpoint insertion_for (fuel : nat) (i : Z) : M unit :=
  match fuel with
  | O => out_of_fuel
  | S fuel' =>
    n <- size ;;
    if i <? wrap (n - 1) then
      insertion_body fuel' i ;;;
      insertion_for fuel' (wrap (i + 1))
    else ret tt
  end.

Definition insertion_sort (fuel : nat) : M unit := insertion_for fuel 0.

(** Running a sort on an array: the array it leaves, when it returns. *)
Definition run (sort : nat → M unit) (fuel : nat) (a : list T) : result state :=
  match sort fuel (init a) with
  | Ok (_, s) => Ok s
  | OutOfRange => OutOfRange
  | OutOfFuel => OutOfFuel
  end.

End Sorter.

Arguments state T : clear implicits.
Arguments M T A : clear implicits.

(** ** Notions for the statements and the proofs *)

Section Pure.
Context {T : Type} `{Elem T}.

(** Order of the elements by key. *)
Definition le_key (x y : T) : Prop := key x ≤ key y.

(** The claim's wording: every adjacent pair is in order. *)
Definition sorted (l : list T) : Prop :=
  ∀ (i : nat) (x y : T), l !! i = Some x → l !! S i = Some y → key x ≤ key y.

(** [k] steps of a pass over [l]: the list it leaves and the number of
    swaps it made. *)
Fixpoint pass (k : nat) (l : list T) : list T * nat :=
  match k, l with
  | S k', x :: y :: l' =>
    if key x >? key y
    then let '(r, c) := pass k' (x :: l') in (y :: r, S c)
    else let '(r, c) := pass k' (y :: l') in (x :: r, c)
  | _, _ => (l, O)
  end.

(** Comparisons made by [k] iterations of the outer loop of
    [selection_sort] when [q] positions are not yet placed. *)
Fixpoint cmps (q k : nat) : nat :=
  match k with
  | O => O
  | S k' => (q - 1) + cmps (q - 1) k'
  end.

(** The invariant of the outer loop of [selection_sort] after [k]
    iterations on the input [a0]. *)
Definition sel_inv (a0 : list T) (k : nat) (a : list T) : Prop :=
  a ≡ₚ a0 ∧ sorted (take k a) ∧
  ∀ x y, x ∈ take k a → y ∈ drop k a → key x ≤ key y.

(** In the inner loop of [selection_sort]: [m] is the position of a least
    key among the positions [i .. j-1]. *)
Definition min_upto (a : list T) (i j m : nat) : Prop :=
  (i ≤ m < j)%nat ∧
  ∃ y, a !! m = Some y ∧
       ∀ (t : nat) x, (i ≤ t < j)%nat → a !! t = Some x → key y ≤ key x.

(** [m'] returns what [m] returns, wherever [m] returns: the relation of a
    loop to the same loop with a larger step budget. *)
Definition extends {A} (m m' : M T A) : Prop :=
  ∀ s r, m s = Ok r → m' s = Ok r.

(** The length is one that the code can index: [min] is an [int]. *)
Definition fits_int (a : list T) : Prop := Z.of_nat (length a) ≤ INT_MAX + 1.

(** The first element is not above any other one. *)
Definition first_is_least (a : list T) : Prop :=
  match a with
  | [] => False
  | p0 :: rest => Forall (le_key p0) rest
  end.

(** Elements of one key are in [b] in the order they have in [a]. *)
Definition same_order_of_equals (a b : list T) : Prop :=
  ∀ v : Z, filter (λ x, key x = v) b = filter (λ x, key x = v) a.

(** Pairs of positions that are out of order: an earlier element with a
    greater key than a later one. *)
Fixpoint inversions (l : list T) : nat :=
  match l with
  | [] => O
  | x :: l' => length (filter (λ y, key y < key x) l') + inversions l'
  end.

End Pure.

(** The array of [main]. *)
Definition sample : list Z := [1; 5; 99; 14; 56; 4; 78; 100; 45; 87; 1].

(** The array of [main] with its first two elements exchanged. *)
Definition sample_5_first : list Z := [5; 1; 99; 14; 56; 4; 78; 100; 45; 87; 1].

(** An array of the length of the source that begins as [2, 2, 1]. *)
Definition sample_2_2_1 : list Z := [2; 2; 1; 3; 4; 5; 6; 7; 8; 9; 10].

(** The array of [main] in order. *)
Definition sample_sorted : list Z := [1; 1; 4; 5; 14; 45; 56; 78; 87; 99; 100].

(** An array whose elements carry the position they have in it. *)
Definition sample_tagged : list (Z * nat) :=
  [(1, 0%nat); (5, 1%nat); (5, 2%nat); (1, 3%nat); (7, 4%nat); (5, 5%nat)].

(** ** Printing, and the programs *)

(** The line feed. *)
Definition newline : string := String (Ascii.ascii_of_nat 10) "".

(** [std::cout << value] for an [int]: its decimal digits, after ["-"] when
    it is negative. *)
Definition show_int (v : Z) : string :=
  DecimalString.NilZero.string_of_int (Z.to_int v).

(** [print_array]: what it appends to the text [out] written to
    [std::cout] so far. *)
Definition print_array (arr : list Z) (out : string) : string :=
  fold_left (λ out value, out +:+ show_int value +:+ " ") arr out +:+ newline.

(** The line that [print_array] writes, by the elements. *)
Definition line (arr : list Z) : string :=
  foldr (λ value rest, show_int value +:+ " " +:+ rest) newline arr.

(** No space and no line feed in a text. *)
Fixpoint blank_free (s : string) : Prop :=
  match s with
  | EmptyString => True
  | String c s' =>
    c ≠ Ascii.ascii_of_nat 32 ∧ c ≠ Ascii.ascii_of_nat 10 ∧ blank_free s'
  end.

(** [main], for any of the three sorts and with the array it starts from
    as an argument: the text written to [std::cout], and the value
    returned, if the sort returns. *)
Definition program (sort : nat → M Z unit) (fuel : nat) (a : list Z)
  : string * result Z :=
  let out := "Original array" +:+ newline in
  let out := print_array a out in
  match sort fuel (init a) with
  | Ok (_, s) =>
    let out := out +:+ "Sorted array" +:+ newline in
    let out := print_array (arr s) out in
    (out, Ok 0)
  | OutOfRange => (out, OutOfRange)
  | OutOfFuel => (out, OutOfFuel)
  end.

(** [main] of [sorting-bubble-sort.cpp], of [sorting-selection-sort.cpp] and
    of [insertion-sort.cpp]. *)
Definition main_bubble (fuel : nat) := program bubble_sort fuel sample.
Definition main_selection (fuel : nat) := program selection_sort fuel sample.
Definition main_insertion (fuel : nat) := program insertion_sort fuel sample.

(** * Proofs *)

(** Goals about lengths of concatenations. *)
Ltac list_len :=
  repeat (rewrite length_app in * || rewrite length_cons in *);
  cbn [length] in *; unfold SIZE_MAX, INT_MAX, size_modulus in *; try lia.

(** Closed goals on numerals. *)
Ltac by_computation :=
  vm_compute; first [reflexivity | discriminate | intros ?; discriminate].

Section Machine.
Context {T : Type} `{Elem T}.
Implicit Types (l pre post rest : list T) (s : state T) (x y : T).

Lemma wrap_small z : 0 ≤ z < size_modulus → wrap z = z.
Proof. intros. unfold wrap. by apply Z.mod_small. Qed.

Lemma wrap_minus_one : wrap (-1) = SIZE_MAX.
Proof. reflexivity. Qed.

Lemma to_int_small z : 0 ≤ z ≤ INT_MAX → to_int z = z.
Proof.
  intros. unfold to_int, int_modulus, INT_MAX in *.
  rewrite Z.mod_small; lia.
Qed.

Lemma of_int_small z : 0 ≤ z ≤ INT_MAX → of_int z = z.
Proof.
  intros. unfold of_int. apply wrap_small.
  unfold INT_MAX, size_modulus in *. lia.
Qed.

Lemma in_range_true i n : 0 ≤ i < n → (0 <=? i) && (i <? n) = true.
Proof. intros. apply andb_true_iff. split; [apply Z.leb_le|apply Z.ltb_lt]; lia. Qed.

(** Reading and writing at a position given by a split of the array. *)
Lemma load_at i a pre x post c w p :
  a = pre ++ x :: post → i = Z.of_nat (length pre) →
  load i (State a c w p) = Ok (x, State a c w p).
Proof.
  intros -> ->. unfold load; cbn [arr].
  rewrite in_range_true by (rewrite length_app, length_cons; lia).
  by rewrite Nat2Z.id, list_lookup_middle.
Qed.

Lemma store_at i a pre x v post c w p :
  a = pre ++ x :: post → i = Z.of_nat (length pre) →
  store i v (State a c w p) = Ok (tt, State (pre ++ v :: post) c w p).
Proof.
  intros -> ->. unfold store; cbn [arr ncmp nswap npass].
  rewrite in_range_true by (rewrite length_app, length_cons; lia).
  by rewrite Nat2Z.id, insert_app_r_alt, Nat.sub_diag.
Qed.

(** [std::swap] of two distinct positions. *)
Lemma swap_at i j A x B y C c w p :
  i = Z.of_nat (length A) → j = Z.of_nat (length A + 1 + length B) →
  swap i j (State (A ++ x :: B ++ y :: C) c w p)
  = Ok (tt, State (A ++ y :: B ++ x :: C) c (S w) p).
Proof.
  intros Hi Hj. unfold swap, bind.
  rewrite (load_at i _ A x (B ++ y :: C)) by done.
  rewrite (load_at j _ (A ++ x :: B) y C)
    by (by rewrite <-?app_assoc || (rewrite length_app, length_cons; lia)).
  rewrite (store_at i _ A x y (B ++ y :: C)) by done.
  rewrite (store_at j _ (A ++ y :: B) y x C)
    by (by rewrite <-?app_assoc || (rewrite length_app, length_cons; lia)).
  unfold tick_swap; cbn [arr ncmp nswap npass].
  by rewrite <-app_assoc.
Qed.

Lemma load_out i s :
  Z.of_nat (length (arr s)) ≤ i → load i s = OutOfRange.
Proof.
  intros. unfold load.
  destruct (_ <? _) eqn:E2; [lia|]. by rewrite andb_false_r.
Qed.

Lemma store_out i v s :
  Z.of_nat (length (arr s)) ≤ i → store i v s = OutOfRange.
Proof.
  intros. unfold store.
  destruct (_ <? _) eqn:E2; [lia|]. by rewrite andb_false_r.
Qed.

(** *** One pass of [bubble_sort] is [pass] *)

Lemma pass_length k : ∀ l, length (pass k l).1 = length l.
Proof.
  induction k as [|k IH]; intros [|x [|y l]]; simpl; try done.
  destruct (key x >? key y).
  - specialize (IH (x :: l)). destruct (pass k (x :: l)); simpl in *. lia.
  - specialize (IH (y :: l)). destruct (pass k (y :: l)); simpl in *. lia.
Qed.

Lemma bubble_for_pass k : ∀ fuel pre rest sw c w p,
  (k < fuel)%nat → (k < length rest)%nat →
  Z.of_nat (length pre + length rest) ≤ SIZE_MAX →
  bubble_for fuel (Z.of_nat (length pre + k)) (Z.of_nat (length pre)) sw
    (State (pre ++ rest) c w p)
  = Ok (sw || negb (Nat.eqb (pass k rest).2 0),
        State (pre ++ (pass k rest).1) (c + k) (w + (pass k rest).2) p).
Proof.
  unfold SIZE_MAX, size_modulus.
  induction k as [|k IH]; intros [|fuel] pre rest sw c w p Hf Hk Hn; try lia.
  - rewrite Nat.add_0_r. cbn [bubble_for]. rewrite Z.ltb_irrefl. unfold ret.
    replace (pass 0 rest) with (rest, 0%nat) by (by destruct rest).
    cbn [fst snd]. by rewrite orb_false_r, !Nat.add_0_r.
  - destruct rest as [|x [|y rest]]; cbn [length] in Hk, Hn; try lia.
    cbn [bubble_for].
    destruct (_ <? _) eqn:E; [|lia].
    assert (Hw : wrap (Z.of_nat (length pre) + 1) = Z.of_nat (length (pre ++ [x]))).
    { rewrite length_app; simpl. rewrite wrap_small; unfold size_modulus; lia. }
    rewrite Hw. unfold bind at 1.
    rewrite (load_at _ _ pre x (y :: rest)) by done.
    unfold bind at 1.
    rewrite (load_at _ _ (pre ++ [x]) y rest) by (by rewrite <-?app_assoc).
    unfold bind at 1, tick_cmp at 1; cbn [arr ncmp nswap npass].
    simpl pass.
    replace (Z.of_nat (length pre + S k)) with (Z.of_nat (length (pre ++ [x]) + k))
      by (rewrite length_app; simpl; lia).
    destruct (key x >? key y) eqn:Ecmp.
    + unfold bind at 1.
      rewrite (swap_at _ _ pre x [] y rest)
        by (rewrite ?length_app; simpl; lia).
      simpl app.
      replace (pre ++ y :: x :: rest) with ((pre ++ [y]) ++ x :: rest)
        by (by rewrite <-app_assoc).
      replace (length (pre ++ [x])) with (length (pre ++ [y]))
        by (by rewrite !length_app).
      rewrite IH; [|lia|simpl in *; lia|rewrite length_app; simpl in *; lia].
      destruct (pass k (x :: rest)) as [r n]; simpl.
      rewrite <-app_assoc. simpl. do 3 f_equal; lia.
    + replace (pre ++ x :: y :: rest) with ((pre ++ [x]) ++ y :: rest)
        by (by rewrite <-app_assoc).
      rewrite IH; [|lia|simpl in *; lia|rewrite length_app; simpl in *; lia].
      destruct (pass k (y :: rest)) as [r n]; simpl.
      rewrite <-app_assoc. simpl. do 3 f_equal; lia.
Qed.

(** *** Sortedness: the adjacent-pair reading and [StronglySorted] *)

#[local] Instance le_key_trans : Transitive (le_key (T:=T)).
Proof. unfold le_key. intros x y z ??. lia. Qed.

#[local] Instance le_key_dec : RelDecision (le_key (T:=T)).
Proof. intros x y. unfold le_key. apply _. Defined.

Lemma sorted_cons_inv x l : sorted (x :: l) → sorted l.
Proof. intros Hs i a b Ha Hb. by apply (Hs (S i) a b). Qed.

Lemma sorted_StronglySorted l : sorted l ↔ StronglySorted le_key l.
Proof.
  split.
  - intros Hs. apply Sorted_StronglySorted; [apply _|].
    induction l as [|x l IH]; [constructor|].
    constructor; [by eapply IH, sorted_cons_inv|].
    destruct l as [|y l]; constructor. by apply (Hs 0%nat x y).
  - induction 1 as [|x l Hl IH Hx]; intros i a b Ha Hb.
    + by rewrite lookup_nil in Ha.
    + destruct i as [|i]; simpl in *.
      * injection Ha as <-. rewrite Forall_forall in Hx.
        apply Hx. by eapply list_elem_of_lookup_2.
      * by eapply IH.
Qed.

(** *** What a pass does *)

Lemma pass_shape k : ∀ l,
  (k < length l)%nat →
  ∃ A m, (pass k l).1 = A ++ m :: drop (S k) l ∧ length A = k ∧
         Forall (λ a, key a ≤ key m) A ∧ A ++ [m] ≡ₚ take (S k) l.
Proof.
  induction k as [|k IH]; intros l Hk.
  - destruct l as [|x l]; simpl in Hk; [lia|].
    exists [], x. replace (pass 0 (x :: l)) with (x :: l, 0%nat) by done.
    simpl. rewrite drop_0, take_0. by repeat split.
  - destruct l as [|x [|y l]]; simpl in Hk; try lia.
    simpl pass. destruct (key x >? key y) eqn:E.
    + destruct (IH (x :: l)) as (A & m & Hp & HA & Hle & Hperm); [simpl; lia|].
      destruct (pass k (x :: l)) as [r n]; simpl in *. subst r.
      exists (y :: A), m. repeat split; simpl; [by rewrite HA| |].
      * constructor; [|done].
        assert (Hx : x ∈ A ++ [m]) by (rewrite Hperm; left).
        apply elem_of_app in Hx as [Hx|Hx].
        -- rewrite Forall_forall in Hle. specialize (Hle _ Hx). lia.
        -- apply list_elem_of_singleton in Hx as ->. lia.
      * rewrite Hperm. apply perm_swap.
    + destruct (IH (y :: l)) as (A & m & Hp & HA & Hle & Hperm); [simpl; lia|].
      destruct (pass k (y :: l)) as [r n]; simpl in *. subst r.
      exists (x :: A), m. repeat split; simpl; [by rewrite HA| |].
      * constructor; [|done].
        assert (Hy : y ∈ A ++ [m]) by (rewrite Hperm; left).
        apply elem_of_app in Hy as [Hy|Hy].
        -- rewrite Forall_forall in Hle. specialize (Hle _ Hy). lia.
        -- apply list_elem_of_singleton in Hy as ->. lia.
      * by rewrite Hperm.
Qed.

Lemma pass_sorted k : ∀ l, sorted l → pass k l = (l, 0%nat).
Proof.
  induction k as [|k IH]; intros [|x [|y l]] Hs; try done.
  simpl. pose proof (Hs 0%nat x y eq_refl eq_refl).
  destruct (key x >? key y) eqn:E; [lia|].
  by rewrite (IH (y :: l)) by (by eapply sorted_cons_inv).
Qed.

Lemma pass_no_swap k : ∀ l,
  (pass k l).2 = 0%nat →
  (pass k l).1 = l ∧ StronglySorted le_key (take (S k) l).
Proof.
  induction k as [|k IH]; intros l Hc.
  - destruct l as [|x l]; simpl; [split; [done|constructor]|].
    rewrite take_0. replace (pass 0 (x :: l)) with (x :: l, 0%nat) by done.
    split; [done|]. repeat constructor.
  - destruct l as [|x [|y l]]; simpl in *.
    + split; [done|constructor].
    + split; [done|repeat constructor].
    + destruct (key x >? key y) eqn:E.
      * destruct (pass k (x :: l)); simpl in *; lia.
      * destruct (IH (y :: l)) as [Hp Hs].
        { destruct (pass k (y :: l)); simpl in *; lia. }
        destruct (pass k (y :: l)) as [r n]; simpl in *. subst r.
        split; [done|]. constructor; [done|].
        apply StronglySorted_cons in Hs as [Hy _].
        constructor; [unfold le_key; lia|].
        eapply Forall_impl; [exact Hy|]. unfold le_key; simpl; intros; lia.
Qed.

(** *** The [do]-[while] loop of [bubble_sort] *)

(** Entered with bound [e], the part of the array above [e] sorted and
    above everything at or below [e], the loop returns with the array
    sorted. *)
Lemma bubble_do_correct e : ∀ fuel L R c w p,
  length L = S e → (e + 2 ≤ fuel)%nat →
  Z.of_nat (length L + length R) ≤ SIZE_MAX →
  StronglySorted le_key R →
  (∀ x y, x ∈ L → y ∈ R → le_key x y) →
  ∃ a' c' w' p',
    bubble_do fuel (Z.of_nat e) (State (L ++ R) c w p)
    = Ok (tt, State a' c' w' p') ∧
    a' ≡ₚ L ++ R ∧ StronglySorted le_key a'.
Proof.
  induction e as [|e IH]; intros [|fuel] L R c w p HL Hf Hn HR HLR; try lia.
  - (* bound 0: the pass makes no step *)
    cbn [bubble_do]. unfold bind at 1, tick_pass at 1; cbn [arr ncmp nswap npass].
    unfold bind at 1.
    destruct fuel as [|fuel]; [lia|]. cbn [bubble_for]. rewrite Z.ltb_irrefl.
    unfold ret. eexists _, _, _, _. split; [done|]. split; [done|].
    destruct L as [|x [|??]]; simpl in HL; try lia.
    apply StronglySorted_app. repeat split; [done|repeat constructor|done].
  - cbn [bubble_do]. unfold bind at 1, tick_pass at 1; cbn [arr ncmp nswap npass].
    unfold bind at 1.
    pose proof (bubble_for_pass (S e) fuel [] (L ++ R) false c w (S p)) as Hfor.
    cbn [length app Nat.add] in Hfor. change (Z.of_nat 0) with 0 in Hfor.
    rewrite Hfor by (rewrite ?length_app; lia). clear Hfor.
    destruct (pass_shape (S e) (L ++ R)) as (A & m & Hp & HA & Hle & Hperm);
      [rewrite length_app; lia|].
    rewrite drop_app_length' in Hp by done.
    rewrite take_app_length' in Hperm by done.
    destruct (Nat.eqb_spec (pass (S e) (L ++ R)).2 0) as [Hz|Hz];
      cbn [orb negb].
    + (* no swap: the loop is left *)
      apply pass_no_swap in Hz as [Hid Hs].
      rewrite take_app_length' in Hs by done.
      unfold ret. eexists _, _, _, _. split; [done|]. cbn [app]. rewrite Hid.
      split; [done|]. apply StronglySorted_app. by repeat split.
    + (* a swap: one more pass, with the bound one lower *)
      replace (wrap (Z.of_nat (S e) - 1)) with (Z.of_nat e)
        by (rewrite wrap_small; unfold SIZE_MAX, size_modulus in *; lia).
      cbn [app]. rewrite Hp.
      assert (Hm : m ∈ L)
        by (rewrite <-Hperm; apply elem_of_app; right; constructor).
      assert (HAL : ∀ a, a ∈ A → a ∈ L)
        by (intros; rewrite <-Hperm; apply elem_of_app; by left).
      assert (HlenR : length L = length (A ++ [m])) by (by rewrite Hperm).
      rewrite length_app in HlenR; simpl in HlenR.
      destruct (IH fuel A (m :: R) (c + S e)%nat
                  (w + (pass (S e) (L ++ R)).2)%nat (S p))
        as (a' & c' & w' & p' & Hrun & Hperm' & Hs');
        [lia|lia|simpl; lia| | |].
      * apply StronglySorted_cons. split; [|done].
        apply Forall_forall. intros y Hy. by apply HLR.
      * intros x y Hx [->|Hy]%elem_of_cons; [|by apply HLR; [apply HAL|]].
        rewrite Forall_forall in Hle. by apply Hle.
      * exists a', c', w', p'. split; [done|]. split; [|done].
        rewrite Hperm', <-Hperm, <-app_assoc. done.
Qed.

Lemma run_Ok (sort : nat → M T unit) fuel a s :
  sort fuel (init a) = Ok (tt, s) → run sort fuel a = Ok s.
Proof. unfold run. by intros ->. Qed.

(** [bubble_sort] on an array that is not empty. *)
Lemma bubble_sort_correct a fuel :
  a ≠ [] → Z.of_nat (length a) ≤ SIZE_MAX → (length a + 1 ≤ fuel)%nat →
  ∃ s, run bubble_sort fuel a = Ok s ∧ arr s ≡ₚ a ∧ sorted (arr s).
Proof.
  intros Ha Hn Hf.
  destruct a as [|x a]; [done|]. clear Ha.
  destruct (bubble_do_correct (length a) fuel (x :: a) [] 0 0 0)
    as (a' & c' & w' & p' & Hrun & Hperm & Hs);
    [done|simpl in *; lia|simpl in *; lia|constructor|by intros ?? _ ?%elem_of_nil|].
  rewrite app_nil_r in Hrun, Hperm.
  exists (State a' c' w' p'). split; [|split; [done|by apply sorted_StronglySorted]].
  apply run_Ok. unfold bubble_sort, bind, size, init; cbn [arr].
  replace (wrap (Z.of_nat (length (x :: a)) - 1)) with (Z.of_nat (length a)); [done|].
  rewrite wrap_small; unfold SIZE_MAX, size_modulus in *; simpl length in *; lia.
Qed.

(** [bubble_sort] on an array that is sorted and not empty: one pass of
    [length a - 1] comparisons, no swap. *)
Lemma bubble_sort_sorted a fuel :
  a ≠ [] → sorted a → Z.of_nat (length a) ≤ SIZE_MAX → (length a + 1 ≤ fuel)%nat →
  run bubble_sort fuel a = Ok (State a (length a - 1) 0 1).
Proof.
  intros Ha Hs Hn Hf. apply run_Ok.
  destruct a as [|x a]; [done|]. clear Ha.
  unfold bubble_sort, bind at 1, size, init; cbn [arr].
  replace (wrap (Z.of_nat (length (x :: a)) - 1)) with (Z.of_nat (length a))
    by (rewrite wrap_small; unfold SIZE_MAX, size_modulus in *; simpl length in *; lia).
  destruct fuel as [|fuel]; [lia|].
  cbn [bubble_do]. unfold bind at 1, tick_pass at 1; cbn [arr ncmp nswap npass].
  unfold bind at 1.
  pose proof (bubble_for_pass (length a) fuel [] (x :: a) false 0 0 1) as Hfor.
  cbn [length app Nat.add] in Hfor. change (Z.of_nat 0) with 0 in Hfor.
  rewrite Hfor by (simpl in *; lia). clear Hfor.
  rewrite pass_sorted by done. cbn [fst snd orb negb Nat.eqb app]. unfold ret.
  do 2 f_equal. simpl. f_equal; lia.
Qed.

(** [bubble_sort] on the empty array: [arr.size() - 1] is [SIZE_MAX], and
    the first pass reads [arr[0]]. *)
Lemma bubble_sort_empty fuel :
  run bubble_sort fuel [] = OutOfRange ∨ run bubble_sort fuel [] = OutOfFuel.
Proof. destruct fuel as [|[|fuel]]; [by right|by right|by left]. Qed.

(** *** [selection_sort] *)

Lemma load_lookup (i : nat) a x c w p :
  a !! i = Some x →
  load (Z.of_nat i) (State a c w p) = Ok (x, State a c w p).
Proof.
  intros Hi. pose proof (lookup_lt_Some _ _ _ Hi).
  unfold load; cbn [arr]. rewrite in_range_true by lia.
  by rewrite Nat2Z.id, Hi.
Qed.

Lemma split_two (i m : nat) a x y :
  a !! i = Some x → a !! m = Some y → (i < m)%nat →
  ∃ A B C, a = A ++ x :: B ++ y :: C ∧ length A = i ∧ (length A + 1 + length B)%nat = m.
Proof.
  intros Hi Hm Hlt.
  pose proof (lookup_lt_Some _ _ _ Hi). pose proof (lookup_lt_Some _ _ _ Hm).
  assert (Hm' : drop (S i) a !! (m - S i)%nat = Some y).
  { rewrite lookup_drop. rewrite <-Hm. f_equal. lia. }
  exists (take i a), (take (m - S i) (drop (S i) a)), (drop (S (m - S i)) (drop (S i) a)).
  split; [|split].
  - by rewrite (take_drop_middle _ _ _ Hm'), (take_drop_middle _ _ _ Hi).
  - rewrite length_take. lia.
  - rewrite !length_take, length_drop. lia.
Qed.

Lemma selection_inner_spec k : ∀ fuel i j m a c w p,
  (k < fuel)%nat → (j + k)%nat = length a →
  Z.of_nat (length a) ≤ INT_MAX + 1 →
  min_upto a i j m →
  ∃ m' : nat,
    selection_inner fuel (Z.of_nat j) (Z.of_nat m) (State a c w p)
    = Ok (Z.of_nat m', State a (c + k) w p) ∧
    min_upto a i (length a) m'.
Proof.
  unfold INT_MAX.
  induction k as [|k IH]; intros [|fuel] i j m a c w p Hf Hj Hn Hmin; try lia.
  - cbn [selection_inner]. unfold bind, size; cbn [arr].
    destruct (_ <? _) eqn:E; [lia|].
    exists m. rewrite Nat.add_0_r in *. by subst j.
  - cbn [selection_inner]. unfold bind at 1, size; cbn [arr].
    destruct (_ <? _) eqn:E; [|lia].
    destruct Hmin as (Hm & y & Hy & Hle).
    destruct (lookup_lt_is_Some_2 a j) as [x Hx]; [lia|].
    unfold bind at 1. rewrite (load_lookup j a x) by done.
    rewrite of_int_small by (unfold INT_MAX; lia).
    unfold bind at 1. rewrite (load_lookup m a y) by done.
    unfold bind at 1, tick_cmp at 1; cbn [arr ncmp nswap npass].
    rewrite to_int_small by (unfold INT_MAX; lia).
    replace (wrap (Z.of_nat j + 1)) with (Z.of_nat (S j))
      by (rewrite wrap_small; unfold size_modulus; lia).
    destruct (key x <? key y) eqn:Ecmp.
    + destruct (IH fuel i (S j) j a (S c) w p) as (m' & Hrun & Hmin');
        [lia|lia|unfold INT_MAX; lia| |].
      * split; [lia|]. exists x. split; [done|].
        intros t z Ht Hz. destruct (decide (t = j)) as [->|].
        -- rewrite Hx in Hz. injection Hz as ->. lia.
        -- assert (key y ≤ key z) by (apply (Hle t z); [lia|done]). lia.
      * exists m'. rewrite Hrun. split; [|done]. do 3 f_equal. lia.
    + destruct (IH fuel i (S j) m a (S c) w p) as (m' & Hrun & Hmin');
        [lia|lia|unfold INT_MAX; lia| |].
      * split; [lia|]. exists y. split; [done|].
        intros t z Ht Hz. destruct (decide (t = j)) as [->|].
        -- rewrite Hx in Hz. injection Hz as ->. lia.
        -- apply (Hle t z); [lia|done].
      * exists m'. rewrite Hrun. split; [|done]. do 3 f_equal. lia.
Qed.

Lemma min_upto_Forall P Q m :
  min_upto (P ++ Q) (length P) (length (P ++ Q)) m →
  ∃ y, (P ++ Q) !! m = Some y ∧ Forall (le_key y) Q.
Proof.
  intros (Hm & y & Hy & Hle). exists y. split; [done|].
  apply Forall_forall. intros z [t Ht]%list_elem_of_lookup.
  pose proof (lookup_lt_Some _ _ _ Ht).
  apply (Hle (length P + t)%nat z); [rewrite length_app; lia|].
  by rewrite lookup_app_r, Nat.add_comm, Nat.add_sub by lia.
Qed.

(** One iteration of the outer loop: a least element of the part [Q] that
    is not yet placed comes to its front. *)
Lemma selection_body_spec fuel P Q c w p :
  Q ≠ [] → (length Q ≤ fuel)%nat →
  Z.of_nat (length P + length Q) ≤ INT_MAX + 1 →
  ∃ y Q' w',
    selection_body fuel (Z.of_nat (length P)) (State (P ++ Q) c w p)
    = Ok (tt, State (P ++ y :: Q') (c + (length Q - 1)) w' p) ∧
    y :: Q' ≡ₚ Q ∧ Forall (le_key y) Q ∧
    (w ≤ w' ≤ w + 1)%nat ∧ (length Q = 1%nat → w' = w).
Proof.
  intros HQ Hf Hn. destruct Q as [|x Q]; [done|]. clear HQ.
  cbn [length] in *. unfold selection_body.
  rewrite to_int_small by (unfold INT_MAX in *; lia).
  replace (wrap (Z.of_nat (length P) + 1)) with (Z.of_nat (S (length P)))
    by (rewrite wrap_small; unfold INT_MAX, size_modulus in *; lia).
  destruct (selection_inner_spec (length Q) fuel (length P) (S (length P))
              (length P) (P ++ x :: Q) c w p) as (m & Hrun & Hmin).
  { lia. }
  { rewrite length_app; simpl; lia. }
  { rewrite length_app; simpl; lia. }
  { split; [lia|]. exists x. split; [by rewrite list_lookup_middle|].
    intros t z Ht Hz. replace t with (length P) in Hz by lia.
    rewrite list_lookup_middle in Hz by done. injection Hz as ->. lia. }
  unfold bind at 1. rewrite Hrun.
  pose proof Hmin as [Hm _].
  apply min_upto_Forall in Hmin as (y & Hy & Hle).
  rewrite length_app in Hm; cbn [length] in Hm.
  rewrite of_int_small by (unfold INT_MAX in *; lia).
  replace (S (length Q) - 1)%nat with (length Q) by lia.
  destruct (decide (m = length P)) as [->|Hne].
  - rewrite list_lookup_middle in Hy by done. injection Hy as <-.
    rewrite Z.eqb_refl. cbn [negb]. unfold ret.
    exists x, Q, w. repeat split; try done; lia.
  - destruct (_ =? _) eqn:E; [lia|]. cbn [negb].
    destruct (split_two (length P) m (P ++ x :: Q) x y) as (A & B & C & Ha & HA & HB);
      [by rewrite list_lookup_middle|done|lia|].
    apply app_inj_1 in Ha as [<- HQ]; [|done].
    injection HQ as ->.
    rewrite (swap_at _ _ P x B y C) by lia.
    exists y, (B ++ x :: C), (S w). repeat split; try done; try lia.
    rewrite <-!Permutation_middle. apply perm_swap.
Qed.

Lemma cmps_full q : (2 * cmps q q = q * (q - 1))%nat.
Proof.
  induction q as [|q IH]; [done|].
  cbn [cmps]. replace (S q - 1)%nat with q by lia. nia.
Qed.

(** [k] iterations of the outer loop, entered with [P] placed and [Q] not
    yet placed. *)
Lemma selection_prefix_spec k : ∀ fuel P Q c w p,
  (k ≤ length Q)%nat → (length Q + 1 ≤ fuel)%nat →
  Z.of_nat (length P + length Q) ≤ INT_MAX + 1 →
  StronglySorted le_key P →
  (∀ x y, x ∈ P → y ∈ Q → le_key x y) →
  ∃ P' Q' w',
    selection_prefix k fuel (Z.of_nat (length P)) (State (P ++ Q) c w p)
    = Ok (tt, State (P' ++ Q') (c + cmps (length Q) k) w' p) ∧
    length P' = (length P + k)%nat ∧
    StronglySorted le_key P' ∧
    (∀ x y, x ∈ P' → y ∈ Q' → le_key x y) ∧
    P' ++ Q' ≡ₚ P ++ Q ∧
    (w ≤ w' ≤ w + Nat.min k (length Q - 1))%nat ∧
    selection_for fuel (Z.of_nat (length P)) (State (P ++ Q) c w p)
    = selection_for (fuel - k) (Z.of_nat (length P')) 
        (State (P' ++ Q') (c + cmps (length Q) k) w' p).
Proof.
  induction k as [|k IH]; intros fuel P Q c w p Hk Hf Hn HP HPQ.
  - exists P, Q, w. cbn [selection_prefix cmps]. unfold ret.
    rewrite !Nat.add_0_r, Nat.sub_0_r. repeat split; try done; lia.
  - destruct fuel as [|fuel]; [lia|].
    destruct (selection_body_spec fuel P Q c w p)
      as (y & Q1 & w1 & Hbody & Hperm & Hy & Hw1 & Hw1');
      [by destruct Q; [simpl in Hk; lia|]|lia|done|].
    assert (HlenQ : length Q = S (length Q1)) by (by rewrite <-Hperm).
    assert (Hnext : wrap (Z.of_nat (length P) + 1) = Z.of_nat (length (P ++ [y]))).
    { rewrite length_app; cbn [length].
      rewrite wrap_small; unfold INT_MAX, size_modulus in *; lia. }
    assert (HQ1 : ∀ z, z ∈ Q1 → z ∈ Q).
    { intros z Hz. rewrite <-Hperm. by right. }
    assert (HyQ : y ∈ Q) by (rewrite <-Hperm; left).
    destruct (IH fuel (P ++ [y]) Q1 (c + (length Q - 1))%nat w1 p)
      as (P' & Q' & w' & Hrun & HlenP' & HP' & HPQ' & Hperm' & Hw' & Hlink).
    { lia. }
    { lia. }
    { rewrite length_app; cbn [length]. lia. }
    { apply StronglySorted_app. repeat split; [|done|repeat constructor].
      intros a b Ha ->%list_elem_of_singleton. by apply HPQ. }
    { intros a b [Ha| ->%list_elem_of_singleton]%elem_of_app Hb.
      - by apply HPQ; [|apply HQ1].
      - rewrite Forall_forall in Hy. by apply Hy, HQ1. }
    exists P', Q', w'.
    replace (c + cmps (length Q) (S k))%nat
      with (c + (length Q - 1) + cmps (length Q1) k)%nat
      by (cbn [cmps]; rewrite HlenQ; replace (S (length Q1) - 1)%nat with (length Q1); lia).
    rewrite <-app_assoc in Hrun, Hlink, Hperm'. cbn [app] in Hrun, Hlink, Hperm'.
    split; [|split; [|split; [|split; [|split; [|split]]]]].
    + cbn [selection_prefix]. unfold bind at 1. rewrite Hbody, Hnext. exact Hrun.
    + rewrite HlenP', length_app; cbn [length]. lia.
    + done.
    + done.
    + rewrite Hperm'. by rewrite Hperm.
    + lia.
    + cbn [selection_for]. unfold bind at 1, size; cbn [arr].
      destruct (_ <? _) eqn:E; [|rewrite length_app in E; lia].
      unfold bind at 1. rewrite Hbody, Hnext.
      replace (S fuel - S k)%nat with (fuel - k)%nat by lia. exact Hlink.
Qed.

(** [selection_sort], with its two counters. *)
Lemma selection_sort_correct a fuel :
  Z.of_nat (length a) ≤ INT_MAX + 1 → (length a + 1 ≤ fuel)%nat →
  ∃ s, run selection_sort fuel a = Ok s ∧ arr s ≡ₚ a ∧ sorted (arr s) ∧
       (2 * ncmp s = length a * (length a - 1))%nat ∧
       (nswap s ≤ length a - 1)%nat.
Proof.
  intros Hn Hf.
  destruct (selection_prefix_spec (length a) fuel [] a 0 0 0)
    as (P' & Q' & w' & _ & HlenP' & HP' & _ & Hperm & Hw' & Hlink);
    [done|done|done|constructor|by intros ?? ?%elem_of_nil|].
  cbn [app length Nat.add] in *. change (Z.of_nat 0) with 0 in Hlink.
  assert (Q' = []) as ->.
  { apply nil_length_inv. apply Permutation_length in Hperm.
    rewrite length_app in Hperm. lia. }
  rewrite app_nil_r in *.
  exists (State P' (cmps (length a) (length a)) w' 0).
  split; [|split; [done|split; [by apply sorted_StronglySorted|split]]].
  - apply run_Ok. unfold selection_sort, init. rewrite Hlink.
    destruct (fuel - length a)%nat as [|f] eqn:Ef; [lia|].
    cbn [selection_for]. unfold bind, size; cbn [arr].
    destruct (_ <? _) eqn:E; [lia|]. done.
  - cbn [ncmp]. apply cmps_full.
  - cbn [nswap]. lia.
Qed.

(** *** [insertion_sort] *)

(** The [while] loop when it stops inside the array: it is entered at the
    last position of [a :: B], every element of [B] is above [temp] and [a]
    is not.  [B] is moved one position up, and the loop is left at [a]. *)
Lemma insertion_while_stop temp B : ∀ fuel A a h R c w p,
  Forall (λ b, key b > key temp) B → key a ≤ key temp →
  (length B < fuel)%nat →
  Z.of_nat (length (A ++ a :: B ++ h :: R)) ≤ SIZE_MAX →
  insertion_while fuel (Z.of_nat (length A + length B)) temp
    (State (A ++ a :: B ++ h :: R) c w p)
  = Ok (Z.of_nat (length A),
        State (A ++ a :: hd h B :: B ++ R) (c + length B + 1) w p).
Proof.
  induction B as [|b B IH] using rev_ind;
    intros [|fuel] A a h R c w p HB Ha Hf Hn; cbn [length] in *; try lia.
  - cbn [insertion_while app hd]. rewrite Nat.add_0_r.
    destruct (_ <=? _) eqn:E; [|lia].
    unfold bind at 1. rewrite (load_at _ _ A a (h :: R)) by done.
    unfold bind at 1, tick_cmp at 1; cbn [arr ncmp nswap npass].
    destruct (_ >? _) eqn:E'; [lia|].
    unfold ret. do 3 f_equal. lia.
  - rewrite length_app in Hf; cbn [length] in Hf.
    apply Forall_app in HB as [HB Hb]. rewrite Forall_singleton in Hb.
    assert (Hsplit : A ++ a :: (B ++ [b]) ++ h :: R = (A ++ a :: B) ++ b :: h :: R)
      by (by rewrite <-!app_assoc).
    assert (Hj : Z.of_nat (length A + length (B ++ [b])) = Z.of_nat (length (A ++ a :: B)))
      by (rewrite !length_app; cbn [length]; lia).
    rewrite Hsplit, Hj in *.
    cbn [insertion_while].
    destruct (_ <=? _) eqn:E; [|lia].
    unfold bind at 1. rewrite (load_at _ _ (A ++ a :: B) b (h :: R)) by done.
    unfold bind at 1, tick_cmp at 1; cbn [arr ncmp nswap npass].
    destruct (_ >? _) eqn:E'; [|lia].
    unfold bind at 1. rewrite (load_at _ _ (A ++ a :: B) b (h :: R)) by done.
    assert (Hlen : length ((A ++ a :: B) ++ b :: h :: R)
                   = (length A + length B + 3 + length R)%nat)
      by list_len.
    rewrite Hlen in Hn.
    replace (wrap (Z.of_nat (length (A ++ a :: B)) + 1))
      with (Z.of_nat (length ((A ++ a :: B) ++ [b]))).
    2:{ rewrite !length_app; cbn [length].
        rewrite wrap_small; unfold SIZE_MAX, size_modulus in *; lia. }
    unfold bind at 1.
    rewrite (store_at _ _ ((A ++ a :: B) ++ [b]) h b R) by (by rewrite <-!app_assoc).
    replace (wrap (Z.of_nat (length (A ++ a :: B)) - 1))
      with (Z.of_nat (length A + length B)).
    2:{ rewrite !length_app; cbn [length].
        rewrite wrap_small; unfold SIZE_MAX, size_modulus in *; lia. }
    replace (((A ++ a :: B) ++ [b]) ++ b :: R) with (A ++ a :: B ++ b :: b :: R)
      by (by rewrite <-!app_assoc).
    rewrite IH; [|done|done|lia|].
    2:{ list_len. }
    do 3 f_equal.
    + f_equal. f_equal. destruct B; [done|]. by rewrite <-!app_assoc.
    + rewrite length_app; cbn [length]. lia.
Qed.

(** The body of the outer loop: [temp] is put behind the last element
    that is not above it. *)
Lemma insertion_body_spec fuel temp A a B R c w p :
  Forall (λ b, key b > key temp) B → key a ≤ key temp →
  (length B < fuel)%nat →
  Z.of_nat (length (A ++ a :: B ++ temp :: R)) ≤ SIZE_MAX →
  insertion_body fuel (Z.of_nat (length A + length B))
    (State (A ++ a :: B ++ temp :: R) c w p)
  = Ok (tt, State (A ++ a :: temp :: B ++ R) (c + length B + 1) w p).
Proof.
  intros HB Ha Hf Hn. unfold insertion_body.
  replace (wrap (Z.of_nat (length A + length B) + 1))
    with (Z.of_nat (length (A ++ a :: B))).
  2:{ rewrite wrap_small; list_len. }
  unfold bind at 1.
  rewrite (load_at _ _ (A ++ a :: B) temp R) by (by rewrite <-?app_assoc).
  unfold bind at 1. rewrite insertion_while_stop by done.
  replace (wrap (Z.of_nat (length A) + 1)) with (Z.of_nat (length (A ++ [a]))).
  2:{ rewrite wrap_small; list_len. }
  rewrite (store_at _ _ (A ++ [a]) (hd temp B) temp (B ++ R))
    by (by rewrite <-?app_assoc).
  by rewrite <-!app_assoc.
Qed.

Lemma split_last_le temp P :
  (∃ x, x ∈ P ∧ key x ≤ key temp) →
  ∃ A a B, P = A ++ a :: B ∧ key a ≤ key temp ∧
           Forall (λ b, key b > key temp) B.
Proof.
  induction P as [|x P IH] using rev_ind; intros (z & Hz & Hle).
  - by apply elem_of_nil in Hz.
  - destruct (decide (key x ≤ key temp)) as [Hx|Hx].
    + by exists P, x, [].
    + destruct IH as (A & a & B & -> & Ha & HB).
      { exists z. split; [|done].
        apply elem_of_app in Hz as [Hz|Hz%list_elem_of_singleton]; [done|].
        by subst z. }
      exists A, a, (B ++ [x]). split; [by rewrite <-app_assoc|]. split; [done|].
      apply Forall_app. split; [done|]. apply Forall_singleton. lia.
Qed.

Lemma filter_none (Q : T → Prop) `{∀ x, Decision (Q x)} l :
  Forall (λ x, ¬ Q x) l → filter Q l = [].
Proof.
  induction 1 as [|x l Hx _ IH]; [done|].
  by rewrite filter_cons_False.
Qed.

(** Moving [temp] in front of elements with greater keys does not change
    the order of the elements of any one key. *)
Lemma filter_key_insert (v : Z) temp B R :
  Forall (λ b, key b > key temp) B →
  filter (λ x, key x = v) (temp :: B ++ R)
  = filter (λ x, key x = v) (B ++ temp :: R).
Proof.
  intros HB. rewrite !filter_app, !filter_cons, filter_app.
  destruct (decide (key temp = v)) as [<-|]; [|done].
  rewrite filter_none; [done|].
  eapply Forall_impl; [exact HB|]. cbv beta. intros. lia.
Qed.

(** One iteration of the outer loop when the first element [p0] is not
    above [temp]: the part in order grows by [temp], and elements of one
    key keep their order. *)
Lemma insertion_step fuel p0 P0 temp R c w p :
  StronglySorted le_key (p0 :: P0) →
  key p0 ≤ key temp →
  (length (p0 :: P0) ≤ fuel)%nat →
  Z.of_nat (length (p0 :: P0 ++ temp :: R)) ≤ SIZE_MAX →
  ∃ P1 c',
    insertion_body fuel (Z.of_nat (length P0)) (State (p0 :: P0 ++ temp :: R) c w p)
    = Ok (tt, State (p0 :: P1 ++ R) c' w p) ∧
    length P1 = S (length P0) ∧
    StronglySorted le_key (p0 :: P1) ∧
    p0 :: P1 ≡ₚ p0 :: P0 ++ [temp] ∧
    ∀ v : Z, filter (λ x, key x = v) (p0 :: P1)
             = filter (λ x, key x = v) (p0 :: P0 ++ [temp]).
Proof.
  intros HP Htemp Hf Hn.
  destruct (split_last_le temp (p0 :: P0)) as (A & a & B & HAB & Ha & HB).
  { exists p0. split; [left|done]. }
  assert (HlenP : length P0 = (length A + length B)%nat).
  { apply (f_equal length) in HAB. list_len. }
  assert (Harr : ∀ R', p0 :: P0 ++ temp :: R' = A ++ a :: B ++ temp :: R').
  { intros R'. change (p0 :: P0 ++ temp :: R') with ((p0 :: P0) ++ temp :: R').
    by rewrite HAB, <-app_assoc. }
  assert (∃ P1, A ++ a :: temp :: B = p0 :: P1 ∧ length P1 = S (length P0))
    as (P1 & HP1 & HlenP1).
  { destruct A as [|a0 A]; simplify_eq/=.
    - eexists. split; [done|]. simpl. lia.
    - eexists. split; [done|]. list_len. }
  assert (Hres : ∀ R', p0 :: P1 ++ R' = A ++ a :: temp :: B ++ R').
  { intros R'. change (p0 :: P1 ++ R') with ((p0 :: P1) ++ R').
    by rewrite <-HP1, <-app_assoc. }
  exists P1, (c + length B + 1)%nat.
  split; [|split; [done|split; [|split]]].
  - rewrite Harr, HlenP, Hres.
    apply insertion_body_spec; [done|done|list_len|by rewrite <-Harr].
  - rewrite <-HP1. rewrite HAB in HP.
    apply StronglySorted_app in HP as (HAaB & HA & HaB).
    apply StronglySorted_cons in HaB as [HaB HsB].
    apply StronglySorted_app. split; [|split; [done|]].
    + intros x y Hx [->|[->|Hy]%elem_of_cons]%elem_of_cons.
      * apply HAaB; [done|left].
      * transitivity a; [apply HAaB; [done|left]|done].
      * apply HAaB; [done|by right].
    + apply StronglySorted_cons. split.
      * constructor; [done|done].
      * apply StronglySorted_cons. split; [|done].
        eapply Forall_impl; [exact HB|]. unfold le_key. cbv beta. intros. lia.
  - rewrite <-(app_nil_r P1), Hres, Harr.
    apply Permutation_app_head, Permutation_cons; [done|].
    apply Permutation_middle.
  - intros v. rewrite <-(app_nil_r P1), Hres, Harr.
    rewrite !filter_app. f_equal.
    rewrite (filter_cons _ a), (filter_cons _ a).
    by rewrite (filter_key_insert v temp B [] HB).
Qed.

(** The outer loop, entered with the part [p0 :: P0] in order and the
    first element [p0] not above anything that is still to be inserted. *)
Lemma insertion_for_spec R : ∀ fuel p0 P0 c w p,
  StronglySorted le_key (p0 :: P0) →
  Forall (le_key p0) R →
  (length (p0 :: P0) + 2 * length R ≤ fuel)%nat →
  Z.of_nat (length (p0 :: P0 ++ R)) ≤ SIZE_MAX →
  ∃ P' c',
    insertion_for fuel (Z.of_nat (length P0)) (State (p0 :: P0 ++ R) c w p)
    = Ok (tt, State P' c' w p) ∧
    StronglySorted le_key P' ∧
    P' ≡ₚ p0 :: P0 ++ R ∧
    ∀ v : Z, filter (λ x, key x = v) P' = filter (λ x, key x = v) (p0 :: P0 ++ R).
Proof.
  induction R as [|temp R IH]; intros [|fuel] p0 P0 c w p HP HR Hf Hn;
    cbn [length] in Hf; try lia.
  - cbn [insertion_for]. unfold bind, size; cbn [arr].
    rewrite app_nil_r.
    replace (wrap (Z.of_nat (length (p0 :: P0)) - 1)) with (Z.of_nat (length P0))
      by (rewrite wrap_small; list_len).
    rewrite Z.ltb_irrefl. unfold ret. by exists (p0 :: P0), c.
  - apply Forall_cons in HR as [Htemp HR]. unfold le_key in Htemp.
    destruct (insertion_step fuel p0 P0 temp R c w p)
      as (P1 & c1 & Hbody & HlenP1 & HP1 & Hperm1 & Hfilter1);
      [done|done|cbn [length]; lia|done|].
    cbn [insertion_for]. unfold bind at 1, size; cbn [arr].
    destruct (_ <? _) eqn:E.
    2:{ rewrite wrap_small in E; list_len. }
    unfold bind at 1. rewrite Hbody.
    replace (wrap (Z.of_nat (length P0) + 1)) with (Z.of_nat (length P1)).
    2:{ rewrite wrap_small; list_len. }
    destruct (IH fuel p0 P1 c1 w p)
      as (P' & c' & Hrun & HP' & Hperm & Hfilter);
      [done|done|cbn [length] in *; lia|clear -Hn HlenP1; list_len|].
    exists P', c'. split; [done|]. split; [done|].
    assert (Hcons : p0 :: P0 ++ temp :: R = (p0 :: P0 ++ [temp]) ++ R)
      by (by rewrite <-app_comm_cons, <-app_assoc).
    split.
    + rewrite Hperm, Hcons, <-Hperm1. done.
    + intros v. rewrite Hfilter, Hcons.
      change (p0 :: P1 ++ R) with ((p0 :: P1) ++ R).
      by rewrite !filter_app, Hfilter1.
Qed.

(** [insertion_sort] on an array whose first element is not above any
    other. *)
Lemma insertion_sort_correct p0 rest fuel :
  Forall (le_key p0) rest →
  Z.of_nat (length (p0 :: rest)) ≤ SIZE_MAX →
  (2 * length (p0 :: rest) ≤ fuel)%nat →
  ∃ s, run insertion_sort fuel (p0 :: rest) = Ok s ∧
       arr s ≡ₚ p0 :: rest ∧ sorted (arr s) ∧
       ∀ v : Z, filter (λ x, key x = v) (arr s)
                = filter (λ x, key x = v) (p0 :: rest).
Proof.
  intros Hmin Hn Hf.
  destruct (insertion_for_spec rest fuel p0 [] 0 0 0)
    as (P' & c' & Hrun & HP' & Hperm & Hfilter);
    [repeat constructor|done|cbn [length] in *; lia|done|].
  exists (State P' c' 0 0). split; [by apply run_Ok|].
  split; [done|]. split; [by apply sorted_StronglySorted|done].
Qed.

(** [insertion_sort] on the empty array: [arr.size() - 1] is [SIZE_MAX], and
    the first iteration reads [arr[1]]. *)
Lemma insertion_sort_empty fuel :
  run insertion_sort fuel [] = OutOfRange ∨ run insertion_sort fuel [] = OutOfFuel.
Proof. destruct fuel as [|fuel]; [by right|by left]. Qed.

(** *** [insertion_sort] below index [0] *)

(** The [while] loop when every element it meets is above [temp]: [j]
    passes [0], becomes [SIZE_MAX], and [arr[j]] is read. *)
Lemma insertion_while_out temp B : ∀ fuel h R c w p,
  Forall (λ b, key b > key temp) B →
  (length B < fuel)%nat →
  Z.of_nat (length (B ++ h :: R)) ≤ SIZE_MAX →
  insertion_while fuel (wrap (Z.of_nat (length B) - 1)) temp
    (State (B ++ h :: R) c w p)
  = OutOfRange.
Proof.
  induction B as [|b B IH] using rev_ind;
    intros [|fuel] h R c w p HB Hf Hn; cbn [length] in *; try lia.
  - cbn [insertion_while app]. change (wrap (Z.of_nat 0 - 1)) with SIZE_MAX.
    change (0 <=? SIZE_MAX) with true. cbv iota.
    unfold bind at 1. by rewrite load_out.
  - rewrite length_app in Hf; cbn [length] in Hf.
    apply Forall_app in HB as [HB Hb]. rewrite Forall_singleton in Hb.
    assert (Hlen : length ((B ++ [b]) ++ h :: R) = (length B + 2 + length R)%nat)
      by list_len.
    rewrite Hlen in Hn.
    replace (wrap (Z.of_nat (length (B ++ [b])) - 1)) with (Z.of_nat (length B)).
    2:{ rewrite wrap_small; list_len. }
    rewrite <-app_assoc. cbn [app].
    cbn [insertion_while].
    destruct (_ <=? _) eqn:E; [|lia].
    unfold bind at 1. rewrite (load_at _ _ B b (h :: R)) by done.
    unfold bind at 1, tick_cmp at 1; cbn [arr ncmp nswap npass].
    destruct (_ >? _) eqn:E'; [|lia].
    unfold bind at 1. rewrite (load_at _ _ B b (h :: R)) by done.
    replace (wrap (Z.of_nat (length B) + 1)) with (Z.of_nat (length (B ++ [b]))).
    2:{ rewrite wrap_small; list_len. }
    unfold bind at 1.
    rewrite (store_at _ _ (B ++ [b]) h b R) by (by rewrite <-?app_assoc).
    rewrite <-app_assoc. cbn [app].
    apply IH; [done|lia|list_len].
Qed.

(** The outer loop when something still to be inserted is below the first
    element. *)
Lemma insertion_for_out R : ∀ fuel p0 P0 c w p,
  StronglySorted le_key (p0 :: P0) →
  ¬ Forall (le_key p0) R →
  (length (p0 :: P0) + 2 * length R ≤ fuel)%nat →
  Z.of_nat (length (p0 :: P0 ++ R)) ≤ SIZE_MAX →
  insertion_for fuel (Z.of_nat (length P0)) (State (p0 :: P0 ++ R) c w p)
  = OutOfRange.
Proof.
  induction R as [|temp R IH]; intros [|fuel] p0 P0 c w p HP HR Hf Hn;
    cbn [length] in Hf; try lia.
  - destruct HR. constructor.
  - cbn [insertion_for]. unfold bind at 1, size; cbn [arr].
    destruct (_ <? _) eqn:E.
    2:{ rewrite wrap_small in E; list_len. }
    unfold bind at 1.
    destruct (decide (key p0 ≤ key temp)) as [Htemp|Htemp].
    + destruct (insertion_step fuel p0 P0 temp R c w p)
        as (P1 & c1 & Hbody & HlenP1 & HP1 & _);
        [done|done|cbn [length]; lia|done|].
      rewrite Hbody.
      replace (wrap (Z.of_nat (length P0) + 1)) with (Z.of_nat (length P1)).
      2:{ rewrite wrap_small; list_len. }
      apply IH; [done| |cbn [length] in *; lia|clear -Hn HlenP1; list_len].
      intros HR'. apply HR. by constructor.
    + unfold insertion_body.
      replace (wrap (Z.of_nat (length P0) + 1)) with (Z.of_nat (length (p0 :: P0))).
      2:{ rewrite wrap_small; list_len. }
      unfold bind at 1.
      rewrite (load_at _ _ (p0 :: P0) temp R) by done.
      unfold bind at 1.
      replace (Z.of_nat (length P0)) with (wrap (Z.of_nat (length (p0 :: P0)) - 1)).
      2:{ rewrite wrap_small; list_len. }
      change (p0 :: P0 ++ temp :: R) with ((p0 :: P0) ++ temp :: R).
      rewrite insertion_while_out; [done| |cbn [length]; lia|done].
      apply StronglySorted_cons in HP as [Hp0 _].
      constructor; [lia|].
      eapply Forall_impl; [exact Hp0|]. unfold le_key. cbv beta. intros. lia.
Qed.

Lemma insertion_sort_out p0 rest fuel :
  ¬ Forall (le_key p0) rest →
  Z.of_nat (length (p0 :: rest)) ≤ SIZE_MAX →
  (2 * length (p0 :: rest) ≤ fuel)%nat →
  run insertion_sort fuel (p0 :: rest) = OutOfRange.
Proof.
  intros Hmin Hn Hf. unfold run, insertion_sort, init.
  pose proof (insertion_for_out rest fuel p0 [] 0 0 0) as Hout.
  cbn [length app] in Hout. change (Z.of_nat 0) with 0 in Hout.
  rewrite Hout; [done|repeat constructor|done|cbn [length] in *; lia|done].
Qed.

(** *** A larger step budget does not change a result *)

Lemma extends_refl {A} (m : M T A) : extends m m.
Proof. by intros s r. Qed.

Lemma extends_bind {A B} (m m' : M T A) (k k' : A → M T B) :
  extends m m' → (∀ a, extends (k a) (k' a)) →
  extends (bind m k) (bind m' k').
Proof.
  intros Hm Hk s r. unfold bind.
  destruct (m s) as [[a s1]| |] eqn:E; try done.
  rewrite (Hm _ _ E). apply Hk.
Qed.

Lemma insertion_while_mono f : ∀ f' j temp,
  (f ≤ f')%nat → extends (insertion_while f j temp) (insertion_while f' j temp).
Proof.
  induction f as [|f IH]; intros [|f'] j temp Hf; try done; try lia.
  cbn [insertion_while]. destruct (0 <=? j); [|apply extends_refl].
  apply extends_bind; [apply extends_refl|intros x].
  apply extends_bind; [apply extends_refl|intros _].
  destruct (_ >? _); [|apply extends_refl].
  apply extends_bind; [apply extends_refl|intros y].
  apply extends_bind; [apply extends_refl|intros _].
  apply IH. lia.
Qed.

Lemma insertion_for_mono f : ∀ f' i,
  (f ≤ f')%nat → extends (insertion_for f i) (insertion_for f' i).
Proof.
  induction f as [|f IH]; intros [|f'] i Hf; try done; try lia.
  cbn [insertion_for].
  apply extends_bind; [apply extends_refl|intros n].
  destruct (_ <? _); [|apply extends_refl].
  apply extends_bind; [|intros _; apply IH; lia].
  unfold insertion_body.
  apply extends_bind; [apply extends_refl|intros temp].
  apply extends_bind; [apply insertion_while_mono; lia|intros j].
  apply extends_refl.
Qed.

Lemma insertion_sort_mono f f' a s :
  (f ≤ f')%nat →
  run insertion_sort f a = Ok s → run insertion_sort f' a = Ok s.
Proof.
  unfold run, insertion_sort. intros Hf Hrun.
  destruct (insertion_for f 0 (init a)) as [[[] s1]| |] eqn:E; try done.
  by rewrite (insertion_for_mono f f' 0 Hf _ _ E).
Qed.

(** Whenever [insertion_sort] returns, the array was not empty, its first
    element was not above any other, and the array comes back in order. *)
Lemma insertion_sort_returns a fuel s :
  Z.of_nat (length a) ≤ SIZE_MAX →
  run insertion_sort fuel a = Ok s →
  (∃ p0 rest, a = p0 :: rest ∧ Forall (le_key p0) rest) ∧
  arr s ≡ₚ a ∧ sorted (arr s) ∧
  ∀ v : Z, filter (λ x, key x = v) (arr s) = filter (λ x, key x = v) a.
Proof.
  intros Hn Hrun.
  destruct a as [|p0 rest].
  { by destruct (insertion_sort_empty fuel) as [E|E]; rewrite E in Hrun. }
  apply (insertion_sort_mono fuel (fuel + 2 * length (p0 :: rest))) in Hrun; [|lia].
  destruct (decide (Forall (le_key p0) rest)) as [Hmin|Hmin].
  - destruct (insertion_sort_correct p0 rest (fuel + 2 * length (p0 :: rest)))
      as (s' & Hrun' & Hperm & Hs & Hst); [done|done|lia|].
    rewrite Hrun in Hrun'. injection Hrun' as <-. split; [by eauto|done].
  - rewrite insertion_sort_out in Hrun; [done|done|done|lia].
Qed.

(** *** The invariant of [selection_sort] *)

(** The invariant read on the two parts of the array. *)
Lemma sel_inv_split a0 k a :
  (k ≤ length a)%nat →
  sel_inv a0 k a ↔
  ∃ P Q, a = P ++ Q ∧ length P = k ∧ P ++ Q ≡ₚ a0 ∧
         StronglySorted le_key P ∧ ∀ x y, x ∈ P → y ∈ Q → le_key x y.
Proof.
  intros Hk. split.
  - intros (Hperm & Hs & Hle). exists (take k a), (drop k a).
    rewrite take_drop. split; [done|]. split; [rewrite length_take; lia|].
    split; [done|]. split; [by apply sorted_StronglySorted|done].
  - intros (P & Q & -> & HP & Hperm & Hs & Hle).
    unfold sel_inv. rewrite take_app_length', drop_app_length' by done.
    split; [done|]. split; [by apply sorted_StronglySorted|done].
Qed.

(** Under the invariant the placed part holds the [k] least keys of the
    input: they are the first [k] keys of the input once sorted. *)
Lemma sel_inv_smallest a0 k a :
  (k ≤ length a)%nat → sel_inv a0 k a →
  key <$> take k a = take k (merge_sort Z.le (key <$> a0)).
Proof.
  intros Hk (P & Q & -> & HP & Hperm & Hs & Hle)%sel_inv_split; [|done].
  rewrite take_app_length' by done.
  assert (Heq : (key <$> P) ++ merge_sort Z.le (key <$> Q)
                = merge_sort Z.le (key <$> a0)).
  { apply (StronglySorted_unique Z.le).
    - apply StronglySorted_app. split; [|split].
      + intros x y [x' [-> Hx]]%list_elem_of_fmap Hy.
        rewrite merge_sort_Permutation in Hy.
        apply list_elem_of_fmap in Hy as [y' [-> Hy]]. by apply Hle.
      + by apply (StronglySorted_fmap _ le_key).
      + apply StronglySorted_merge_sort; apply _.
    - apply StronglySorted_merge_sort; apply _.
    - by rewrite !merge_sort_Permutation, <-Hperm, fmap_app. }
  rewrite <-Heq, take_app_length'; [done|]. by rewrite length_fmap.
Qed.

(** An iteration of the outer loop takes the invariant from [k] to
    [S k]. *)
Lemma selection_body_preserves a0 k fuel s :
  (k < length (arr s))%nat → (length (arr s) - k ≤ fuel)%nat →
  Z.of_nat (length (arr s)) ≤ INT_MAX + 1 →
  sel_inv a0 k (arr s) →
  ∃ s', selection_body fuel (Z.of_nat k) s = Ok (tt, s') ∧
        sel_inv a0 (S k) (arr s').
Proof.
  destruct s as [a c w p]; cbn [arr].
  intros Hk Hf Hn (P & Q & -> & HP & Hperm & Hs & Hle)%sel_inv_split; [|lia].
  rewrite length_app in *.
  destruct (selection_body_spec fuel P Q c w p)
    as (y & Q1 & w1 & Hbody & Hperm1 & Hy & _);
    [by destruct Q; [simpl in *; lia|]|lia|done|].
  rewrite HP in Hbody. eexists. split; [exact Hbody|]. cbn [arr].
  apply sel_inv_split; [list_len; apply Permutation_length in Hperm1; list_len|].
  exists (P ++ [y]), Q1. split; [by rewrite <-app_assoc|].
  split; [list_len|].
  assert (HQ1 : ∀ z, z ∈ Q1 → z ∈ Q) by (intros z Hz; rewrite <-Hperm1; by right).
  assert (HyQ : y ∈ Q) by (rewrite <-Hperm1; left).
  split; [by rewrite <-app_assoc, <-Hperm; cbn [app]; rewrite Hperm1|].
  split.
  - apply StronglySorted_app. repeat split; [|done|repeat constructor].
    intros a b Ha ->%list_elem_of_singleton. by apply Hle.
  - intros a b [Ha| ->%list_elem_of_singleton]%elem_of_app Hb.
    + by apply Hle; [|apply HQ1].
    + rewrite Forall_forall in Hy. by apply Hy, HQ1.
Qed.

(** The array after [k] iterations of the outer loop. *)
Lemma selection_prefix_inv a k fuel :
  (k ≤ length a)%nat → (length a + 1 ≤ fuel)%nat →
  Z.of_nat (length a) ≤ INT_MAX + 1 →
  ∃ s, selection_prefix k fuel 0 (init a) = Ok (tt, s) ∧
       sel_inv a k (arr s) ∧
       selection_sort fuel (init a) = selection_for (fuel - k) (Z.of_nat k) s.
Proof.
  intros Hk Hf Hn.
  destruct (selection_prefix_spec k fuel [] a 0 0 0)
    as (P' & Q' & w' & Hrun & HlenP' & HP' & HPQ' & Hperm & _ & Hlink);
    [done|done|done|constructor|by intros ?? ?%elem_of_nil|].
  cbn [app length Nat.add] in *. change (Z.of_nat 0) with 0 in *.
  eexists. split; [exact Hrun|]. cbn [arr]. split.
  - apply sel_inv_split; [apply Permutation_length in Hperm; list_len|].
    by exists P', Q'.
  - unfold selection_sort, init. by rewrite Hlink, HlenP'.
Qed.

End Machine.

(** * The claims *)

Section Claims.
Context {T : Type} `{Elem T}.

Lemma fits_int_size (a : list T) : fits_int a → Z.of_nat (length a) ≤ SIZE_MAX.
Proof. unfold fits_int, INT_MAX, SIZE_MAX, size_modulus. lia. Qed.

Lemma first_is_least_cons (a : list T) :
  first_is_least a → ∃ p0 rest, a = p0 :: rest ∧ Forall (le_key p0) rest.
Proof. destruct a as [|p0 rest]; [done|]. by exists p0, rest. Qed.

(** C1 (amended).  On an array that is not empty, [bubble_sort] returns
    with every adjacent pair in order, [s[i] <= s[i+1]]; [selection_sort]
    does so on every array; every array that [insertion_sort] returns is
    in that order, and [insertion_sort] returns on every array whose first
    element is not above any other. *)
Theorem C1_sortedness (a : list T) :
  fits_int a →
  (a ≠ [] → ∀ fuel, (length a + 1 ≤ fuel)%nat →
     ∃ s, run bubble_sort fuel a = Ok s ∧ sorted (arr s)) ∧
  (∀ fuel, (length a + 1 ≤ fuel)%nat →
     ∃ s, run selection_sort fuel a = Ok s ∧ sorted (arr s)) ∧
  (∀ fuel s, run insertion_sort fuel a = Ok s → sorted (arr s)) ∧
  (first_is_least a → ∀ fuel, (2 * length a ≤ fuel)%nat →
     ∃ s, run insertion_sort fuel a = Ok s ∧ sorted (arr s)).
Proof.
  intros Hfit. pose proof (fits_int_size a Hfit) as Hsz.
  split; [|split; [|split]].
  - intros Ha fuel Hf.
    destruct (bubble_sort_correct a fuel) as (s & Hrun & _ & Hs); try done.
    by exists s.
  - intros fuel Hf.
    destruct (selection_sort_correct a fuel) as (s & Hrun & _ & Hs & _); try done.
    by exists s.
  - intros fuel s Hrun.
    by destruct (insertion_sort_returns a fuel s Hsz Hrun) as (_ & _ & Hs & _).
  - intros (p0 & rest & -> & Hmin)%first_is_least_cons fuel Hf.
    destruct (insertion_sort_correct p0 rest fuel) as (s & Hrun & _ & Hs & _);
      try done.
    by exists s.
Qed.

(** C2 (amended).  On an array that is not empty, [bubble_sort] returns a
    rearrangement of its input: the same values, each as often as before;
    [selection_sort] does so on every array; every array that
    [insertion_sort] returns is a rearrangement of its input, and
    [insertion_sort] returns on every array whose first element is not
    above any other. *)
Theorem C2_permutation (a : list T) :
  fits_int a →
  (a ≠ [] → ∀ fuel, (length a + 1 ≤ fuel)%nat →
     ∃ s, run bubble_sort fuel a = Ok s ∧ arr s ≡ₚ a) ∧
  (∀ fuel, (length a + 1 ≤ fuel)%nat →
     ∃ s, run selection_sort fuel a = Ok s ∧ arr s ≡ₚ a) ∧
  (∀ fuel s, run insertion_sort fuel a = Ok s → arr s ≡ₚ a) ∧
  (first_is_least a → ∀ fuel, (2 * length a ≤ fuel)%nat →
     ∃ s, run insertion_sort fuel a = Ok s ∧ arr s ≡ₚ a).
Proof.
  intros Hfit. pose proof (fits_int_size a Hfit) as Hsz.
  split; [|split; [|split]].
  - intros Ha fuel Hf.
    destruct (bubble_sort_correct a fuel) as (s & Hrun & Hp & _); try done.
    by exists s.
  - intros fuel Hf.
    destruct (selection_sort_correct a fuel) as (s & Hrun & Hp & _); try done.
    by exists s.
  - intros fuel s Hrun.
    by destruct (insertion_sort_returns a fuel s Hsz Hrun) as (_ & Hp & _).
  - intros (p0 & rest & -> & Hmin)%first_is_least_cons fuel Hf.
    destruct (insertion_sort_correct p0 rest fuel) as (s & Hrun & Hp & _);
      try done.
    by exists s.
Qed.

(** C4 (amended).  On an array of length 1 each of the three sorts returns
    with the array unchanged, without a comparison and without a swap
    ([bubble_sort] after its one pass); on the array of length 0
    [selection_sort] does so. *)
Theorem C4_singleton_and_empty (x : T) (fuel : nat) :
  run bubble_sort (S (S fuel)) [x] = Ok (State [x] 0 0 1) ∧
  run selection_sort (S (S fuel)) [x] = Ok (State [x] 0 0 0) ∧
  run insertion_sort (S fuel) [x] = Ok (State [x] 0 0 0) ∧
  run selection_sort (S fuel) ([] : list T) = Ok (State [] 0 0 0).
Proof. repeat split. Qed.

(** C6 (amended).  In every array that [insertion_sort] returns, the
    elements of one key are in the order they had in the input; and
    [insertion_sort] returns on every array whose first element is not
    above any other. *)
Theorem C6_insertion_stable (a : list T) :
  fits_int a →
  (∀ fuel s, run insertion_sort fuel a = Ok s → same_order_of_equals a (arr s)) ∧
  (first_is_least a → ∀ fuel, (2 * length a ≤ fuel)%nat →
     ∃ s, run insertion_sort fuel a = Ok s ∧ same_order_of_equals a (arr s)).
Proof.
  intros Hfit. pose proof (fits_int_size a Hfit) as Hsz. split.
  - intros fuel s Hrun.
    by destruct (insertion_sort_returns a fuel s Hsz Hrun) as (_ & _ & _ & Hst).
  - intros (p0 & rest & -> & Hmin)%first_is_least_cons fuel Hf.
    destruct (insertion_sort_correct p0 rest fuel) as (s & Hrun & _ & _ & Hst);
      try done.
    by exists s.
Qed.

(** C7 (amended).  [bubble_sort] returns on every array that is not empty,
    [selection_sort] on every array, [insertion_sort] on every array whose
    first element is not above any other: a budget of [length a + 1] steps
    per loop, [2 * length a] for [insertion_sort], is enough, and so is
    every larger one. *)
Theorem C7_termination (a : list T) :
  fits_int a →
  (a ≠ [] → ∀ fuel, (length a + 1 ≤ fuel)%nat →
     ∃ s, run bubble_sort fuel a = Ok s) ∧
  (∀ fuel, (length a + 1 ≤ fuel)%nat → ∃ s, run selection_sort fuel a = Ok s) ∧
  (first_is_least a → ∀ fuel, (2 * length a ≤ fuel)%nat →
     ∃ s, run insertion_sort fuel a = Ok s).
Proof.
  intros Hfit. pose proof (fits_int_size a Hfit) as Hsz.
  split; [|split].
  - intros Ha fuel Hf.
    destruct (bubble_sort_correct a fuel) as (s & Hrun & _); try done.
    by exists s.
  - intros fuel Hf.
    destruct (selection_sort_correct a fuel) as (s & Hrun & _); try done.
    by exists s.
  - intros (p0 & rest & -> & Hmin)%first_is_least_cons fuel Hf.
    destruct (insertion_sort_correct p0 rest fuel) as (s & Hrun & _); try done.
    by exists s.
Qed.

(** C8 (amended).  On an array that is in order and not empty,
    [bubble_sort] makes one pass, of [length a - 1] comparisons, makes no
    swap, and returns with the array unchanged. *)
Theorem C8_bubble_sorted_input (a : list T) (fuel : nat) :
  a ≠ [] → sorted a → fits_int a → (length a + 1 ≤ fuel)%nat →
  run bubble_sort fuel a = Ok (State a (length a - 1) 0 1).
Proof.
  intros Ha Hs Hfit Hf. apply bubble_sort_sorted; try done.
  by apply fits_int_size.
Qed.

(** C9.  On an array of length [n], [selection_sort] makes
    [n * (n - 1) / 2] comparisons, whatever the order of the elements, and
    at most [n - 1] swaps. *)
Theorem C9_selection_counts (a : list T) (fuel : nat) :
  fits_int a → (length a + 1 ≤ fuel)%nat →
  ∃ s, run selection_sort fuel a = Ok s ∧
       ncmp s = (length a * (length a - 1) / 2)%nat ∧
       (nswap s ≤ length a - 1)%nat.
Proof.
  intros Hfit Hf.
  destruct (selection_sort_correct a fuel) as (s & Hrun & _ & _ & Hc & Hw);
    try done.
  exists s. split; [done|]. split; [|done].
  rewrite <-Hc, Nat.mul_comm. by rewrite Nat.div_mul.
Qed.

(** C10.  The outer loop of [selection_sort]: after the iteration [i], the
    positions [0 .. i] are in order, hold the [i + 1] least values of the
    input, and hold nothing above any element of the other positions; the
    array is a rearrangement of the input; the loop goes on from there.
    And the body of the loop takes this invariant from [k] to [k + 1]. *)
Theorem C10_selection_invariant (a : list T) (fuel : nat) :
  fits_int a → (length a + 1 ≤ fuel)%nat →
  (∀ i, (i < length a)%nat →
     ∃ s, selection_prefix (S i) fuel 0 (init a) = Ok (tt, s) ∧
          selection_sort fuel (init a)
          = selection_for (fuel - S i) (Z.of_nat (S i)) s ∧
          arr s ≡ₚ a ∧
          sorted (take (S i) (arr s)) ∧
          key <$> take (S i) (arr s) = take (S i) (merge_sort Z.le (key <$> a)) ∧
          ∀ x y, x ∈ take (S i) (arr s) → y ∈ drop (S i) (arr s) → key x ≤ key y) ∧
  (∀ k s, (k < length a)%nat → length (arr s) = length a →
     sel_inv a k (arr s) →
     ∃ s', selection_body (fuel - S k) (Z.of_nat k) s = Ok (tt, s') ∧
           sel_inv a (S k) (arr s')).
Proof.
  intros Hfit Hf. split.
  - intros i Hi.
    destruct (selection_prefix_inv a (S i) fuel) as (s & Hrun & Hinv & Hlink);
      [lia|done|done|].
    exists s. split; [done|]. split; [done|].
    assert (Hlen : length (arr s) = length a).
    { destruct Hinv as [Hp _]. by apply Permutation_length in Hp. }
    pose proof (sel_inv_smallest a (S i) (arr s)) as Hsm.
    destruct Hinv as (Hp & Hs & Hle).
    split; [done|]. split; [done|]. split; [|done].
    apply Hsm; [lia|done].
  - intros k s Hk Hlen Hinv.
    apply selection_body_preserves; [lia|lia|by rewrite Hlen|done].
Qed.

End Claims.

(** * The claims on the arrays of the source *)

(** The run of [main] in each of the three programs. *)
Example bubble_sort_sample :
  run bubble_sort 12 sample = Ok (State sample_sorted 55 22 10).
Proof. reflexivity. Qed.

Example selection_sort_sample :
  run selection_sort 12 sample = Ok (State sample_sorted 55 8 0).
Proof. reflexivity. Qed.

Example insertion_sort_sample :
  run insertion_sort 22 sample = Ok (State sample_sorted 32 0 0).
Proof. reflexivity. Qed.

Lemma fits_int_sample : fits_int sample.
Proof. by_computation. Qed.

Lemma first_is_least_sample : first_is_least sample.
Proof. repeat constructor; by_computation. Qed.

Lemma insertion_sort_never_returns (a : list Z) :
  fits_int a → ¬ first_is_least a →
  ∀ fuel, run insertion_sort fuel a = OutOfRange ∨ run insertion_sort fuel a = OutOfFuel.
Proof.
  intros Hfit Hmin fuel.
  destruct (run insertion_sort fuel a) as [s| |] eqn:Hrun; [|by left|by right].
  destruct (insertion_sort_returns a fuel s (fits_int_size a Hfit) Hrun)
    as ((p0 & rest & -> & Hle) & _).
  by destruct Hmin.
Qed.

Lemma not_first_is_least_cons (x y : Z) (l : list Z) :
  y < x → ¬ first_is_least (x :: l ++ y :: []) .
Proof.
  intros Hlt Hmin. cbn in Hmin. apply Forall_app in Hmin as [_ Hy].
  rewrite Forall_singleton in Hy. unfold le_key, key, int_elem in Hy. lia.
Qed.

(** C1 as stated fails on the empty array for [bubble_sort], which reads
    [arr[0]], and on [[2; 1]] for [insertion_sort], which reads
    [arr[SIZE_MAX]]: neither run returns an array. *)
Lemma C1_counterexample :
  ¬ (∃ fuel s, run bubble_sort fuel ([] : list Z) = Ok s ∧ sorted (arr s)) ∧
  ¬ (∃ fuel s, run insertion_sort fuel [2; 1] = Ok s ∧ sorted (arr s)).
Proof.
  split; intros (fuel & s & Hrun & _).
  - by destruct (bubble_sort_empty (T:=Z) fuel) as [E|E]; rewrite E in Hrun.
  - destruct (insertion_sort_never_returns [2; 1]) with (fuel := fuel) as [E|E];
      [by_computation|apply (not_first_is_least_cons 2 1 []); lia| |];
      by rewrite E in Hrun.
Qed.

(** C2 as stated fails on the same two arrays. *)
Lemma C2_counterexample :
  ¬ (∃ fuel s, run bubble_sort fuel ([] : list Z) = Ok s ∧ arr s ≡ₚ []) ∧
  ¬ (∃ fuel s, run insertion_sort fuel [2; 1] = Ok s ∧ arr s ≡ₚ [2; 1]).
Proof.
  split; intros (fuel & s & Hrun & _).
  - by destruct (bubble_sort_empty (T:=Z) fuel) as [E|E]; rewrite E in Hrun.
  - destruct (insertion_sort_never_returns [2; 1]) with (fuel := fuel) as [E|E];
      [by_computation|apply (not_first_is_least_cons 2 1 []); lia| |];
      by rewrite E in Hrun.
Qed.

(** C3 fails on an array of the length of the source: [insertion_sort]
    on [sample_5_first] shifts [5] to make room for [1], takes [j] from [0]
    to [SIZE_MAX], and reads [arr[SIZE_MAX]]. *)
Theorem C3_insertion_out_of_range :
  run insertion_sort 22 sample_5_first = OutOfRange ∧
  ∀ fuel, run insertion_sort fuel sample_5_first = OutOfRange ∨
          run insertion_sort fuel sample_5_first = OutOfFuel.
Proof.
  split; [reflexivity|].
  apply insertion_sort_never_returns; [by_computation|].
  apply (not_first_is_least_cons 5 1 [1; 99; 14; 56; 4; 78; 100; 45; 87]). lia.
Qed.

(** C4 as stated fails on the empty array for [bubble_sort] and for
    [insertion_sort]: [arr.size() - 1] is [SIZE_MAX], and the first
    iteration reads the array. *)
Lemma C4_counterexample :
  ¬ (∃ fuel s, run bubble_sort fuel ([] : list Z) = Ok s ∧ arr s = []) ∧
  ¬ (∃ fuel s, run insertion_sort fuel ([] : list Z) = Ok s ∧ arr s = []).
Proof.
  split; intros (fuel & s & Hrun & _).
  - by destruct (bubble_sort_empty (T:=Z) fuel) as [E|E]; rewrite E in Hrun.
  - by destruct (insertion_sort_empty (T:=Z) fuel) as [E|E]; rewrite E in Hrun.
Qed.

(** C5 on the code: [bubble_sort] and [selection_sort] take [[2; 2; 1]] to
    [[1; 2; 2]]; [insertion_sort] reads [arr[SIZE_MAX]] when it inserts
    [1], on [[2; 2; 1]] and on the array of the length of the source that
    begins with these three values. *)
Theorem C5_scenario_2_2_1 :
  run bubble_sort 4 [2; 2; 1] = Ok (State [1; 2; 2] 3 2 3) ∧
  run selection_sort 4 [2; 2; 1] = Ok (State [1; 2; 2] 3 1 0) ∧
  run insertion_sort 6 [2; 2; 1] = OutOfRange ∧
  run insertion_sort 22 sample_2_2_1 = OutOfRange ∧
  ∀ fuel, run insertion_sort fuel [2; 2; 1] = OutOfRange ∨
          run insertion_sort fuel [2; 2; 1] = OutOfFuel.
Proof.
  do 4 (split; [reflexivity|]).
  apply insertion_sort_never_returns; [by_computation|].
  apply (not_first_is_least_cons 2 1 [2]). lia.
Qed.

(** C6 as stated fails on the empty array and on [[2; 1]]:
    [insertion_sort] returns no array there. *)
Lemma C6_counterexample :
  ¬ (∃ fuel s, run insertion_sort fuel ([] : list Z) = Ok s ∧
               same_order_of_equals [] (arr s)) ∧
  ¬ (∃ fuel s, run insertion_sort fuel [2; 1] = Ok s ∧
               same_order_of_equals [2; 1] (arr s)).
Proof.
  split; intros (fuel & s & Hrun & _).
  - by destruct (insertion_sort_empty (T:=Z) fuel) as [E|E]; rewrite E in Hrun.
  - destruct (insertion_sort_never_returns [2; 1]) with (fuel := fuel) as [E|E];
      [by_computation|apply (not_first_is_least_cons 2 1 []); lia| |];
      by rewrite E in Hrun.
Qed.

(** C7 as stated fails on the empty array for [bubble_sort] and on
    [[2; 1]] for [insertion_sort]: with no budget does the run return. *)
Lemma C7_counterexample :
  ¬ (∃ fuel s, run bubble_sort fuel ([] : list Z) = Ok s) ∧
  ¬ (∃ fuel s, run insertion_sort fuel [2; 1] = Ok s).
Proof.
  split; intros (fuel & s & Hrun).
  - by destruct (bubble_sort_empty (T:=Z) fuel) as [E|E]; rewrite E in Hrun.
  - destruct (insertion_sort_never_returns [2; 1]) with (fuel := fuel) as [E|E];
      [by_computation|apply (not_first_is_least_cons 2 1 []); lia| |];
      by rewrite E in Hrun.
Qed.

(** C8 as stated fails on the empty array: it is in order, and
    [bubble_sort] does not return on it. *)
Lemma C8_counterexample :
  sorted ([] : list Z) ∧
  ¬ (∃ fuel s, run bubble_sort fuel ([] : list Z) = Ok s).
Proof.
  split; [by intros i x y ?|].
  intros (fuel & s & Hrun).
  by destruct (bubble_sort_empty (T:=Z) fuel) as [E|E]; rewrite E in Hrun.
Qed.

(** ** The theorems at work *)

Lemma sorted_sample_sorted : sorted sample_sorted.
Proof. apply sorted_StronglySorted. repeat constructor; by_computation. Qed.

Lemma C1_witness :
  fits_int sample ∧
  (∃ s, run bubble_sort 12 sample = Ok s ∧ sorted (arr s)) ∧
  (∃ s, run selection_sort 12 sample = Ok s ∧ sorted (arr s)) ∧
  sorted sample_sorted ∧
  (∃ s, run insertion_sort 22 sample = Ok s ∧ sorted (arr s)).
Proof.
  destruct (C1_sortedness sample fits_int_sample) as (Hb & Hs & Hi & Hi').
  split; [exact fits_int_sample|].
  split; [apply Hb; [discriminate|simpl; lia]|].
  split; [apply Hs; simpl; lia|].
  split; [exact (Hi 22%nat (State sample_sorted 32 0 0) eq_refl)|].
  apply Hi'; [exact first_is_least_sample|simpl; lia].
Defined.

Lemma C2_witness :
  fits_int sample ∧
  (∃ s, run bubble_sort 12 sample = Ok s ∧ arr s ≡ₚ sample) ∧
  (∃ s, run selection_sort 12 sample = Ok s ∧ arr s ≡ₚ sample) ∧
  sample_sorted ≡ₚ sample ∧
  (∃ s, run insertion_sort 22 sample = Ok s ∧ arr s ≡ₚ sample).
Proof.
  destruct (C2_permutation sample fits_int_sample) as (Hb & Hs & Hi & Hi').
  split; [exact fits_int_sample|].
  split; [apply Hb; [discriminate|simpl; lia]|].
  split; [apply Hs; simpl; lia|].
  split; [exact (Hi 22%nat (State sample_sorted 32 0 0) eq_refl)|].
  apply Hi'; [exact first_is_least_sample|simpl; lia].
Defined.

Lemma fits_int_sample_tagged : fits_int sample_tagged.
Proof. by_computation. Qed.

Lemma first_is_least_sample_tagged : first_is_least sample_tagged.
Proof. repeat constructor; by_computation. Qed.

Lemma C6_witness :
  fits_int sample_tagged ∧
  same_order_of_equals sample_tagged
    [(1, 0%nat); (1, 3%nat); (5, 1%nat); (5, 2%nat); (5, 5%nat); (7, 4%nat)] ∧
  (∃ s, run insertion_sort 12 sample_tagged = Ok s ∧
        same_order_of_equals sample_tagged (arr s)).
Proof.
  destruct (C6_insertion_stable sample_tagged fits_int_sample_tagged) as (Hi & Hi').
  split; [exact fits_int_sample_tagged|].
  split.
  - exact (Hi 12%nat
             (State [(1, 0%nat); (1, 3%nat); (5, 1%nat); (5, 2%nat); (5, 5%nat);
                     (7, 4%nat)] 8 0 0) eq_refl).
  - apply Hi'; [exact first_is_least_sample_tagged|simpl; lia].
Defined.

Lemma C7_witness :
  fits_int sample ∧
  (∃ s, run bubble_sort 12 sample = Ok s) ∧
  (∃ s, run selection_sort 12 sample = Ok s) ∧
  (∃ s, run insertion_sort 22 sample = Ok s).
Proof.
  destruct (C7_termination sample fits_int_sample) as (Hb & Hs & Hi).
  split; [exact fits_int_sample|].
  split; [apply Hb; [discriminate|simpl; lia]|].
  split; [apply Hs; simpl; lia|].
  apply Hi; [exact first_is_least_sample|simpl; lia].
Defined.

Lemma fits_int_sample_sorted : fits_int sample_sorted.
Proof. by_computation. Qed.

Lemma C8_witness :
  sample_sorted ≠ [] ∧ sorted sample_sorted ∧ fits_int sample_sorted ∧
  run bubble_sort 12 sample_sorted = Ok (State sample_sorted 10 0 1).
Proof.
  split; [discriminate|].
  split; [exact sorted_sample_sorted|].
  split; [exact fits_int_sample_sorted|].
  apply (C8_bubble_sorted_input sample_sorted 12);
    [discriminate|exact sorted_sample_sorted|exact fits_int_sample_sorted|simpl; lia].
Defined.

Lemma C9_witness :
  fits_int sample ∧
  ∃ s, run selection_sort 12 sample = Ok s ∧ ncmp s = 55%nat ∧ (nswap s ≤ 10)%nat.
Proof.
  split; [exact fits_int_sample|].
  apply (C9_selection_counts sample 12); [exact fits_int_sample|simpl; lia].
Defined.

Lemma sel_inv_start (a : list Z) : sel_inv a 0 a.
Proof.
  split; [done|]. split; [by intros i x y ?|].
  intros x y Hx. rewrite take_0 in Hx. by apply elem_of_nil in Hx.
Qed.

Lemma C10_witness :
  fits_int sample ∧
  (∃ s, selection_prefix 4 12 0 (init sample) = Ok (tt, s) ∧
        selection_sort 12 (init sample) = selection_for 8 4 s ∧
        arr s ≡ₚ sample ∧
        sorted (take 4 (arr s)) ∧
        key <$> take 4 (arr s) = [1; 1; 4; 5] ∧
        ∀ x y, x ∈ take 4 (arr s) → y ∈ drop 4 (arr s) → key x ≤ key y) ∧
  (∃ s', selection_body 11 0 (init sample) = Ok (tt, s') ∧
         sel_inv sample 1 (arr s')).
Proof.
  destruct (C10_selection_invariant sample 12 fits_int_sample) as (Hafter & Hbody);
    [simpl; lia|].
  split; [exact fits_int_sample|]. split.
  - apply (Hafter 3%nat). simpl; lia.
  - apply (Hbody 0%nat (init sample)); [simpl; lia|reflexivity|apply sel_inv_start].
Defined.

(** * Further properties of the three sorts *)

Section Further.
Context {T : Type} `{Elem T}.
Implicit Types (l : list T) (x y : T).

#[local] Existing Instance le_key_trans.
#[local] Existing Instance le_key_dec.

(** ** Inversions *)

Lemma below_perm x l l' :
  l ≡ₚ l' →
  length (filter (λ y, key y < key x) l) = length (filter (λ y, key y < key x) l').
Proof. intros Hp. by rewrite Hp. Qed.

Lemma inversions_sorted l : StronglySorted le_key l → inversions l = 0%nat.
Proof.
  induction 1 as [|x l Hl IH Hx]; [done|]. cbn [inversions]. rewrite IH.
  rewrite filter_none; [done|].
  eapply Forall_impl; [exact Hx|]. unfold le_key. cbv beta. intros. lia.
Qed.

Lemma inversions_none_sorted l : inversions l = 0%nat → StronglySorted le_key l.
Proof.
  induction l as [|x l IH]; [constructor|]. cbn [inversions]. intros Hz.
  constructor; [apply IH; lia|].
  assert (Hnil : filter (λ y, key y < key x) l = [])
    by (apply nil_length_inv; lia).
  apply Forall_forall. intros y Hy. unfold le_key.
  destruct (decide (key y < key x)) as [Hlt|]; [|lia].
  assert (Hin : y ∈ filter (λ y, key y < key x) l)
    by (by apply list_elem_of_filter).
  rewrite Hnil in Hin. by apply elem_of_nil in Hin.
Qed.

(** ** [bubble_sort]: what a pass keeps *)

Lemma pass_perm k : ∀ l, (pass k l).1 ≡ₚ l.
Proof.
  induction k as [|k IH]; intros [|x [|y l]]; try done.
  simpl. destruct (key x >? key y).
  - specialize (IH (x :: l)). destruct (pass k (x :: l)) as [r c]; simpl in *.
    rewrite IH. apply perm_swap.
  - specialize (IH (y :: l)). destruct (pass k (y :: l)) as [r c]; simpl in *.
    by rewrite IH.
Qed.

(** A pass exchanges two neighbours only when their keys differ. *)
Lemma pass_filter (v : Z) k : ∀ l,
  filter (λ x, key x = v) (pass k l).1 = filter (λ x, key x = v) l.
Proof.
  induction k as [|k IH]; intros [|x [|y l]]; try done.
  simpl. destruct (key x >? key y) eqn:E.
  - specialize (IH (x :: l)). destruct (pass k (x :: l)) as [r c]; simpl in *.
    rewrite (filter_cons _ y), IH, !filter_cons.
    repeat case_decide; try done; lia.
  - specialize (IH (y :: l)). destruct (pass k (y :: l)) as [r c]; simpl in *.
    by rewrite (filter_cons _ x), IH, !filter_cons.
Qed.

(** Every swap of a pass removes one inversion. *)
Lemma pass_inversions k : ∀ l,
  (inversions (pass k l).1 + (pass k l).2 = inversions l)%nat.
Proof.
  induction k as [|k IH]; intros [|x [|y l]]; try (simpl; lia).
  simpl pass. destruct (key x >? key y) eqn:E.
  - pose proof (IH (x :: l)) as IHx. pose proof (pass_perm k (x :: l)) as Hp.
    destruct (pass k (x :: l)) as [r c]; cbn [fst snd] in *.
    cbn [inversions] in *. rewrite (below_perm y _ _ Hp), !filter_cons.
    repeat case_decide; cbn [length]; lia.
  - pose proof (IH (y :: l)) as IHy. pose proof (pass_perm k (y :: l)) as Hp.
    destruct (pass k (y :: l)) as [r c]; cbn [fst snd] in *.
    cbn [inversions] in *. rewrite (below_perm x _ _ Hp), !filter_cons.
    repeat case_decide; cbn [length]; lia.
Qed.

Lemma pass_no_swap_iff k l :
  S k = length l → (pass k l).2 = 0%nat ↔ sorted l.
Proof.
  intros Hk. split.
  - intros [_ Hs]%pass_no_swap. rewrite take_ge in Hs by lia.
    by apply sorted_StronglySorted.
  - intros Hs. by rewrite pass_sorted.
Qed.

Lemma cmps_succ e : cmps (S e) (S e) = (e + cmps e e)%nat.
Proof. cbn [cmps]. by replace (S e - 1)%nat with e by lia. Qed.

(** The counters of the [do]-[while] loop, entered with bound [e]. *)
Lemma bubble_do_counts e : ∀ fuel l c w p,
  (e < length l)%nat → (e + 2 ≤ fuel)%nat →
  Z.of_nat (length l) ≤ SIZE_MAX →
  ∃ a' c' w' p',
    bubble_do fuel (Z.of_nat e) (State l c w p) = Ok (tt, State a' c' w' p') ∧
    a' ≡ₚ l ∧
    (∀ v : Z, filter (λ x, key x = v) a' = filter (λ x, key x = v) l) ∧
    (w' + inversions a' = w + inversions l)%nat ∧
    (c + e ≤ c' ≤ c + cmps (S e) (S e))%nat ∧
    (p < p' ≤ p + S e)%nat ∧
    (p' = S p ↔ (pass e l).2 = 0%nat).
Proof.
  induction e as [|e IH]; intros [|fuel] l c w p He Hf Hn; try lia.
  - cbn [bubble_do]. unfold bind at 1, tick_pass at 1; cbn [arr ncmp nswap npass].
    unfold bind at 1.
    destruct fuel as [|fuel]; [lia|]. cbn [bubble_for]. rewrite Z.ltb_irrefl.
    unfold ret. exists l, c, w, (S p).
    replace (pass 0 l) with (l, 0%nat) by (by destruct l).
    cbn [fst snd cmps]. repeat split; try done; lia.
  - cbn [bubble_do]. unfold bind at 1, tick_pass at 1; cbn [arr ncmp nswap npass].
    unfold bind at 1.
    pose proof (bubble_for_pass (S e) fuel [] l false c w (S p)) as Hfor.
    cbn [length app Nat.add] in Hfor. change (Z.of_nat 0) with 0 in Hfor.
    rewrite Hfor by lia. clear Hfor.
    pose proof (pass_perm (S e) l) as Hperm.
    pose proof (pass_inversions (S e) l) as Hinv.
    pose proof (pass_length (S e) l) as Hlen.
    pose proof (λ v, pass_filter v (S e) l) as Hfil.
    destruct (Nat.eqb_spec (pass (S e) l).2 0) as [Hz|Hz]; cbn [orb negb app].
    + unfold ret. eexists _, _, _, _. split; [done|].
      rewrite cmps_succ. repeat split; try done; lia.
    + replace (wrap (Z.of_nat (S e) - 1)) with (Z.of_nat e)
        by (rewrite wrap_small; unfold SIZE_MAX, size_modulus in *; lia).
      destruct (IH fuel (pass (S e) l).1 (c + S e)%nat
                  (w + (pass (S e) l).2)%nat (S p))
        as (a' & c' & w' & p' & Hrun & Hperm' & Hfil' & Hw & Hc & Hp & _);
        [lia|lia|lia|].
      exists a', c', w', p'. split; [done|].
      rewrite (cmps_succ (S e)).
      split; [by rewrite Hperm'|]. split; [by intros v; rewrite Hfil'|].
      repeat split; try lia.
Qed.

(** [bubble_sort]: the number of swaps is the number of inversions of the
    input, equal keys keep their order, and a single pass is made exactly
    on an input that is in order. *)
Lemma bubble_sort_counts (a : list T) fuel :
  a ≠ [] → Z.of_nat (length a) ≤ SIZE_MAX → (length a + 1 ≤ fuel)%nat →
  ∃ s, run bubble_sort fuel a = Ok s ∧
       same_order_of_equals a (arr s) ∧
       nswap s = inversions a ∧
       (length a - 1 ≤ ncmp s)%nat ∧ (2 * ncmp s ≤ length a * (length a - 1))%nat ∧
       (1 ≤ npass s ≤ length a)%nat ∧
       (npass s = 1%nat ↔ sorted a).
Proof.
  intros Ha Hn Hf.
  destruct (bubble_sort_correct a fuel Ha Hn Hf) as (s0 & Hrun0 & _ & Hs0).
  destruct a as [|x a]; [done|]. clear Ha.
  destruct (bubble_do_counts (length a) fuel (x :: a) 0 0 0)
    as (a' & c' & w' & p' & Hrun & Hperm & Hfil & Hw & Hc & Hp & Hone);
    [simpl; lia|simpl in *; lia|done|].
  assert (Hrun' : run bubble_sort fuel (x :: a) = Ok (State a' c' w' p')).
  { apply run_Ok. unfold bubble_sort, bind, size, init; cbn [arr].
    replace (wrap (Z.of_nat (length (x :: a)) - 1)) with (Z.of_nat (length a));
      [done|].
    rewrite wrap_small; unfold SIZE_MAX, size_modulus in *; simpl length in *; lia. }
  rewrite Hrun' in Hrun0. injection Hrun0 as <-. cbn [arr] in Hs0.
  apply sorted_StronglySorted, inversions_sorted in Hs0.
  exists (State a' c' w' p'). split; [done|]. cbn [arr ncmp nswap npass].
  split; [done|]. split; [lia|].
  pose proof (cmps_full (S (length a))) as Hfull.
  cbn [length]. replace (S (length a) - 1)%nat with (length a) in * by lia.
  split; [lia|]. split; [lia|]. split; [lia|].
  rewrite Hone. by apply pass_no_swap_iff.
Qed.

(** ** [selection_sort] on an array that is in order *)

Lemma StronglySorted_lookup_le l (i t : nat) x y :
  StronglySorted le_key l → (i < t)%nat →
  l !! i = Some x → l !! t = Some y → key x ≤ key y.
Proof.
  intros Hs Hit Hx Hy.
  rewrite <-(take_drop_middle l i x Hx) in Hs.
  apply StronglySorted_app in Hs as (_ & _ & Hs).
  apply StronglySorted_cons in Hs as [Hle _].
  rewrite Forall_forall in Hle. apply Hle.
  apply list_elem_of_lookup. exists (t - S i)%nat.
  rewrite lookup_drop. rewrite <-Hy. f_equal. lia.
Qed.

(** The inner loop keeps [min] when nothing further on is below it: the
    comparison is strict. *)
Lemma selection_inner_keep k : ∀ fuel (j m : nat) a c w p y,
  (k < fuel)%nat → (j + k)%nat = length a →
  Z.of_nat (length a) ≤ INT_MAX + 1 → (m < j)%nat →
  a !! m = Some y →
  (∀ (t : nat) x, (j ≤ t)%nat → a !! t = Some x → key y ≤ key x) →
  selection_inner fuel (Z.of_nat j) (Z.of_nat m) (State a c w p)
  = Ok (Z.of_nat m, State a (c + k) w p).
Proof.
  unfold INT_MAX.
  induction k as [|k IH]; intros [|fuel] j m a c w p y Hf Hj Hn Hm Hy Hle; try lia.
  - cbn [selection_inner]. unfold bind, size; cbn [arr].
    destruct (_ <? _) eqn:E; [lia|]. by rewrite Nat.add_0_r.
  - cbn [selection_inner]. unfold bind at 1, size; cbn [arr].
    destruct (_ <? _) eqn:E; [|lia].
    destruct (lookup_lt_is_Some_2 a j) as [x Hx]; [lia|].
    unfold bind at 1. rewrite (load_lookup j a x) by done.
    rewrite of_int_small by (unfold INT_MAX; lia).
    unfold bind at 1. rewrite (load_lookup m a y) by done.
    unfold bind at 1, tick_cmp at 1; cbn [arr ncmp nswap npass].
    replace (wrap (Z.of_nat j + 1)) with (Z.of_nat (S j))
      by (rewrite wrap_small; unfold size_modulus; lia).
    pose proof (Hle j x (Nat.le_refl j) Hx).
    destruct (key x <? key y) eqn:Ecmp; [lia|].
    rewrite (IH fuel (S j) m a (S c) w p y); try done; try lia.
    + do 3 f_equal. lia.
    + intros t z Ht. apply Hle. lia.
Qed.

Lemma selection_for_sorted q : ∀ fuel (i : nat) a c w p,
  (i + q)%nat = length a → (q + 1 ≤ fuel)%nat →
  Z.of_nat (length a) ≤ INT_MAX + 1 →
  StronglySorted le_key a →
  selection_for fuel (Z.of_nat i) (State a c w p)
  = Ok (tt, State a (c + cmps q q) w p).
Proof.
  induction q as [|q IH]; intros [|fuel] i a c w p Hi Hf Hn Hs; try lia.
  - cbn [selection_for cmps]. unfold bind, size; cbn [arr].
    destruct (_ <? _) eqn:E; [lia|]. unfold ret. by rewrite Nat.add_0_r.
  - cbn [selection_for]. unfold bind at 1, size; cbn [arr].
    destruct (_ <? _) eqn:E; [|lia].
    destruct (lookup_lt_is_Some_2 a i) as [y Hy]; [lia|].
    unfold bind at 1, selection_body, bind at 1.
    rewrite to_int_small by (unfold INT_MAX in *; lia).
    replace (wrap (Z.of_nat i + 1)) with (Z.of_nat (S i))
      by (rewrite wrap_small; unfold INT_MAX, size_modulus in *; lia).
    rewrite (selection_inner_keep q fuel (S i) i a c w p y); try done; try lia.
    2:{ intros t x Ht Hx. eapply (StronglySorted_lookup_le a i t); try done; lia. }
    rewrite of_int_small by (unfold INT_MAX in *; lia).
    rewrite Z.eqb_refl. cbn [negb]. unfold ret at 1.
    rewrite (IH fuel (S i) a (c + q)%nat w p); try done; try lia.
    rewrite cmps_succ. do 3 f_equal. lia.
Qed.

(** On an array that is in order, [selection_sort] makes its
    [n * (n - 1) / 2] comparisons, no swap, and leaves the array as it
    is. *)
Lemma selection_sort_sorted (a : list T) fuel :
  sorted a → fits_int a → (length a + 1 ≤ fuel)%nat →
  run selection_sort fuel a
  = Ok (State a (length a * (length a - 1) / 2) 0 0).
Proof.
  intros Hs Hfit Hf. apply run_Ok. unfold selection_sort, init.
  change 0 with (Z.of_nat 0).
  rewrite (selection_for_sorted (length a)); try done.
  - do 3 f_equal. cbn [Nat.add].
    rewrite <-(cmps_full (length a)), Nat.mul_comm. by rewrite Nat.div_mul.
  - by apply sorted_StronglySorted.
Qed.

(** ** [selection_sort] does not keep the order of equal keys *)

(** One iteration of the inner loop. *)
Lemma selection_inner_step fuel (j m : nat) a c w p x y :
  a !! j = Some x → a !! m = Some y →
  Z.of_nat (length a) ≤ INT_MAX + 1 →
  selection_inner (S fuel) (Z.of_nat j) (Z.of_nat m) (State a c w p)
  = selection_inner fuel (Z.of_nat (S j))
      (Z.of_nat (if key x <? key y then j else m)) (State a (S c) w p).
Proof.
  intros Hx Hy Hn.
  pose proof (lookup_lt_Some _ _ _ Hx). pose proof (lookup_lt_Some _ _ _ Hy).
  unfold INT_MAX in *.
  cbn [selection_inner]. unfold bind at 1, size; cbn [arr].
  destruct (_ <? _) eqn:E; [|lia].
  unfold bind at 1. rewrite (load_lookup j a x) by done.
  rewrite of_int_small by (unfold INT_MAX; lia).
  unfold bind at 1. rewrite (load_lookup m a y) by done.
  unfold bind at 1, tick_cmp at 1; cbn [arr ncmp nswap npass].
  rewrite to_int_small by (unfold INT_MAX; lia).
  replace (wrap (Z.of_nat j + 1)) with (Z.of_nat (S j))
    by (rewrite wrap_small; unfold size_modulus; lia).
  by destruct (key x <? key y).
Qed.

(** Two elements of one key placed before an element of a lesser key: the
    first iteration exchanges the first and the third, and the two come out
    in the other order. *)
Lemma selection_sort_swaps_equals x y z fuel :
  key x = key y → key z < key x →
  run selection_sort (4 + fuel) [x; y; z] = Ok (State [z; y; x] 3 1 0).
Proof.
  intros Hxy Hzx.
  assert (Hn : Z.of_nat (length [x; y; z]) ≤ INT_MAX + 1) by (by vm_compute).
  apply run_Ok. unfold selection_sort, init.
  change (4 + fuel)%nat with (S (3 + fuel)).
  cbn [selection_for]. unfold bind at 1, size; cbn [arr].
  change (3 + fuel)%nat with (S (S (S fuel))).
  change (0 <? Z.of_nat (length [x; y; z])) with true. cbv iota.
  unfold bind at 1, selection_body, bind at 1.
  change (to_int 0) with (Z.of_nat 0). change (wrap (0 + 1)) with (Z.of_nat 1).
  rewrite (selection_inner_step _ 1 0 _ _ _ _ y x) by done.
  replace (key y <? key x) with false by lia.
  rewrite (selection_inner_step _ 2 0 _ _ _ _ z x) by done.
  replace (key z <? key x) with true by lia.
  rewrite (selection_inner_keep 0 _ 3 2 _ _ _ _ z); try done; try (simpl; lia).
  2:{ intros t v Ht Hv. apply lookup_lt_Some in Hv. simpl in Hv. lia. }
  change (of_int (Z.of_nat 2)) with (Z.of_nat 2). change (Z.of_nat 0) with 0.
  change (negb (Z.of_nat 2 =? 0)) with true. cbv iota.
  rewrite (swap_at 0 (Z.of_nat 2) [] x [y] z []) by done. cbn [app].
  change (wrap (0 + 1)) with (Z.of_nat 1).
  rewrite (selection_for_sorted 2); try done; try (simpl; lia).
  repeat constructor; unfold le_key; lia.
Qed.

(** ** [insertion_sort]: where it fails, and what it costs *)

(** With enough budget, [insertion_sort] returns when the first element is
    not above any other, and reads out of range otherwise. *)
Lemma insertion_sort_outcome (a : list T) fuel :
  Z.of_nat (length a) ≤ SIZE_MAX → (2 * length a + 1 ≤ fuel)%nat →
  (first_is_least a ↔ ∃ s, run insertion_sort fuel a = Ok s) ∧
  (¬ first_is_least a ↔ run insertion_sort fuel a = OutOfRange).
Proof.
  intros Hn Hf. destruct a as [|p0 rest].
  - destruct fuel as [|fuel]; [lia|]. cbn [first_is_least].
    change (run insertion_sort (S fuel) []) with (@OutOfRange (state T)).
    split; split; try done; [by intros [s Hs]|tauto].
  - cbn [first_is_least].
    destruct (decide (Forall (le_key p0) rest)) as [Hmin|Hmin].
    + destruct (insertion_sort_correct p0 rest fuel Hmin Hn) as (s & Hrun & _);
        [lia|].
      rewrite Hrun. split; split.
      * by eauto.
      * done.
      * intros Hc. by destruct Hc.
      * done.
    + rewrite (insertion_sort_out p0 rest fuel Hmin Hn) by lia.
      split; split.
      * intros Hc. by destruct Hmin.
      * by intros [s Hs].
      * done.
      * done.
Qed.

Lemma inversions_app_perm l1 l2 l2' :
  l2 ≡ₚ l2' →
  (inversions (l1 ++ l2) + inversions l2' = inversions (l1 ++ l2') + inversions l2)%nat.
Proof.
  intros Hp. induction l1 as [|x l1 IH]; [simpl; lia|].
  cbn [app inversions].
  rewrite (below_perm x (l1 ++ l2) (l1 ++ l2')) by (by rewrite Hp). lia.
Qed.

(** Moving [temp] in front of [B], all above it, removes one inversion
    for each element of [B]. *)
Lemma inversions_move temp B R :
  Forall (λ b, key b > key temp) B →
  inversions (B ++ temp :: R) = (inversions (temp :: B ++ R) + length B)%nat.
Proof.
  induction 1 as [|b B Hb HB IH]; [simpl; lia|].
  cbn [app inversions length] in *.
  rewrite (below_perm b (B ++ temp :: R) (temp :: B ++ R))
    by (by rewrite <-Permutation_middle).
  rewrite IH, !filter_cons.
  repeat case_decide; cbn [length]; lia.
Qed.

(** One iteration of the outer loop: its comparisons are one more than the
    inversions it removes. *)
Lemma insertion_step_count fuel p0 P0 temp R c w p :
  StronglySorted le_key (p0 :: P0) →
  key p0 ≤ key temp →
  (length (p0 :: P0) ≤ fuel)%nat →
  Z.of_nat (length (p0 :: P0 ++ temp :: R)) ≤ SIZE_MAX →
  ∃ P1 c',
    insertion_body fuel (Z.of_nat (length P0)) (State (p0 :: P0 ++ temp :: R) c w p)
    = Ok (tt, State (p0 :: P1 ++ R) c' w p) ∧
    (c' + inversions (p0 :: P1 ++ R)
     = c + 1 + inversions (p0 :: P0 ++ temp :: R))%nat.
Proof.
  intros HP Htemp Hf Hn.
  destruct (split_last_le temp (p0 :: P0)) as (A & a & B & HAB & Ha & HB).
  { exists p0. split; [left|done]. }
  assert (HlenP : length P0 = (length A + length B)%nat).
  { apply (f_equal length) in HAB. list_len. }
  assert (Harr : p0 :: P0 ++ temp :: R = A ++ a :: B ++ temp :: R).
  { change (p0 :: P0 ++ temp :: R) with ((p0 :: P0) ++ temp :: R).
    by rewrite HAB, <-app_assoc. }
  assert (∃ P1, A ++ a :: temp :: B = p0 :: P1) as (P1 & HP1).
  { destruct A as [|a0 A]; simplify_eq/=; by eexists. }
  assert (Hres : p0 :: P1 ++ R = A ++ a :: temp :: B ++ R).
  { change (p0 :: P1 ++ R) with ((p0 :: P1) ++ R).
    by rewrite <-HP1, <-app_assoc. }
  exists P1, (c + length B + 1)%nat. split.
  - rewrite Harr, HlenP, Hres.
    apply insertion_body_spec; [done|done|list_len|by rewrite <-Harr].
  - rewrite Harr, Hres.
    pose proof (inversions_app_perm (A ++ [a]) (B ++ temp :: R) (temp :: B ++ R))
      as Hinv.
    rewrite <-!app_assoc in Hinv. cbn [app] in Hinv.
    assert (Hp : B ++ temp :: R ≡ₚ temp :: B ++ R)
      by (by rewrite <-Permutation_middle).
    specialize (Hinv Hp). rewrite (inversions_move temp B R HB) in Hinv. lia.
Qed.

Lemma insertion_for_count R : ∀ fuel p0 P0 c w p,
  StronglySorted le_key (p0 :: P0) →
  Forall (le_key p0) R →
  (length (p0 :: P0) + 2 * length R ≤ fuel)%nat →
  Z.of_nat (length (p0 :: P0 ++ R)) ≤ SIZE_MAX →
  ∃ P' c',
    insertion_for fuel (Z.of_nat (length P0)) (State (p0 :: P0 ++ R) c w p)
    = Ok (tt, State P' c' w p) ∧
    (c' + inversions P' = c + length R + inversions (p0 :: P0 ++ R))%nat.
Proof.
  induction R as [|temp R IH]; intros [|fuel] p0 P0 c w p HP HR Hf Hn;
    cbn [length] in Hf; try lia.
  - cbn [insertion_for]. unfold bind, size; cbn [arr].
    rewrite app_nil_r.
    replace (wrap (Z.of_nat (length (p0 :: P0)) - 1)) with (Z.of_nat (length P0))
      by (rewrite wrap_small; list_len).
    rewrite Z.ltb_irrefl. unfold ret. exists (p0 :: P0), c.
    split; [done|]. cbn [length]. lia.
  - apply Forall_cons in HR as [Htemp HR]. unfold le_key in Htemp.
    destruct (insertion_step fuel p0 P0 temp R c w p)
      as (P1 & c1 & Hbody & HlenP1 & HP1 & _);
      [done|done|cbn [length]; lia|done|].
    destruct (insertion_step_count fuel p0 P0 temp R c w p)
      as (P1' & c1' & Hbody' & Hcount);
      [done|done|cbn [length]; lia|done|].
    rewrite Hbody in Hbody'. injection Hbody' as HeqP <-.
    apply app_inv_tail in HeqP as <-.
    cbn [insertion_for]. unfold bind at 1, size; cbn [arr].
    destruct (_ <? _) eqn:E.
    2:{ rewrite wrap_small in E; list_len. }
    unfold bind at 1. rewrite Hbody.
    replace (wrap (Z.of_nat (length P0) + 1)) with (Z.of_nat (length P1)).
    2:{ rewrite wrap_small; list_len. }
    destruct (IH fuel p0 P1 c1 w p) as (P' & c' & Hrun & Hc);
      [done|done|cbn [length] in *; lia|clear -Hn HlenP1; list_len|].
    exists P', c'. split; [done|]. cbn [length]. lia.
Qed.

(** When [insertion_sort] returns, it has made [n - 1] comparisons and one
    more for every inversion of the input; it calls no [std::swap]. *)
Lemma insertion_sort_counts (a : list T) fuel :
  first_is_least a → Z.of_nat (length a) ≤ SIZE_MAX →
  (2 * length a ≤ fuel)%nat →
  ∃ s, run insertion_sort fuel a = Ok s ∧
       ncmp s = (length a - 1 + inversions a)%nat ∧ nswap s = 0%nat.
Proof.
  intros (p0 & rest & -> & Hmin)%first_is_least_cons Hn Hf.
  destruct (insertion_sort_correct p0 rest fuel Hmin Hn Hf)
    as (s & Hrun & _ & Hs & _).
  destruct (insertion_for_count rest fuel p0 [] 0 0 0) as (P' & c' & Hrun' & Hc);
    [repeat constructor|done|cbn [length] in *; lia|done|].
  apply (run_Ok insertion_sort fuel (p0 :: rest)) in Hrun'.
  rewrite Hrun' in Hrun. injection Hrun as <-.
  cbn [arr] in Hs. apply sorted_StronglySorted, inversions_sorted in Hs.
  exists (State P' c' 0 0). split; [done|]. cbn [ncmp nswap app length] in *.
  split; [lia|done].
Qed.

(** ** Arrays in order *)

(** An array in order is determined by the order of the elements of each
    key. *)
Lemma stable_sorted_unique l1 : ∀ l2,
  StronglySorted le_key l1 → StronglySorted le_key l2 →
  (∀ v : Z, filter (λ x, key x = v) l1 = filter (λ x, key x = v) l2) →
  l1 = l2.
Proof.
  induction l1 as [|x l1 IH]; intros [|y l2] Hs1 Hs2 Hf; try done.
  - specialize (Hf (key y)). by rewrite filter_cons_True in Hf.
  - specialize (Hf (key x)). by rewrite filter_cons_True in Hf.
  - apply StronglySorted_cons in Hs1 as [Hx Hs1].
    apply StronglySorted_cons in Hs2 as [Hy Hs2].
    rewrite Forall_forall in Hx. rewrite Forall_forall in Hy.
    assert (Hyx : key x ≤ key y).
    { pose proof (Hf (key y)) as Hfy.
      rewrite (filter_cons_True _ y) in Hfy by done.
      assert (Hin : y ∈ filter (λ z, key z = key y) (x :: l1))
        by (rewrite Hfy; left).
      apply list_elem_of_filter in Hin as [_ [->|Hin]%elem_of_cons]; [lia|].
      by apply Hx. }
    assert (Hxy : key y ≤ key x).
    { pose proof (Hf (key x)) as Hfx.
      rewrite (filter_cons_True _ x) in Hfx by done.
      assert (Hin : x ∈ filter (λ z, key z = key x) (y :: l2))
        by (rewrite <-Hfx; left).
      apply list_elem_of_filter in Hin as [_ [->|Hin]%elem_of_cons]; [lia|].
      by apply Hy. }
    assert (x = y) as <-.
    { specialize (Hf (key x)).
      rewrite !filter_cons_True in Hf by lia. by injection Hf. }
    f_equal. apply IH; [done|done|].
    intros v. specialize (Hf v). rewrite !filter_cons in Hf.
    case_decide; [by injection Hf|done].
Qed.

(** The keys of an array in order are the keys of its elements, sorted. *)
Lemma sorted_keys (a b : list T) :
  b ≡ₚ a → sorted b → key <$> b = merge_sort Z.le (key <$> a).
Proof.
  intros Hp Hs. apply (StronglySorted_unique Z.le).
  - apply (StronglySorted_fmap _ le_key); [done|]. by apply sorted_StronglySorted.
  - apply StronglySorted_merge_sort; apply _.
  - by rewrite merge_sort_Permutation, Hp.
Qed.

Lemma sorted_first_is_least (a : list T) : a ≠ [] → sorted a → first_is_least a.
Proof.
  intros Ha Hs%sorted_StronglySorted. destruct a as [|x a]; [done|].
  by apply StronglySorted_cons in Hs as [Hx _].
Qed.

(** On an array that is in order and not empty, [insertion_sort] makes
    [n - 1] comparisons and leaves the array as it is. *)
Lemma insertion_sort_sorted (a : list T) fuel :
  a ≠ [] → sorted a → Z.of_nat (length a) ≤ SIZE_MAX →
  (2 * length a ≤ fuel)%nat →
  run insertion_sort fuel a = Ok (State a (length a - 1) 0 0).
Proof.
  intros Ha Hs Hn Hf.
  pose proof (sorted_first_is_least a Ha Hs) as Hmin.
  destruct (insertion_sort_counts a fuel Hmin Hn Hf) as (s & Hrun & Hc & Hw).
  destruct (insertion_sort_returns a fuel s Hn Hrun) as (_ & _ & Hs' & Hst).
  rewrite Hrun. f_equal. destruct s as [a' c' w' p']; cbn [arr ncmp nswap] in *.
  assert (a' = a) as ->.
  { apply stable_sorted_unique; [by apply sorted_StronglySorted..|done]. }
  assert (p' = 0%nat) as ->.
  { destruct a as [|p0 rest]; [done|].
    destruct (insertion_for_count rest fuel p0 [] 0 0 0) as (P' & c2 & Hrun' & _);
      [repeat constructor|done|cbn [length] in *; lia|done|].
    apply (run_Ok insertion_sort fuel (p0 :: rest)) in Hrun'.
    rewrite Hrun' in Hrun. by injection Hrun. }
  apply sorted_StronglySorted, inversions_sorted in Hs.
  f_equal; lia.
Qed.

End Further.

(** * Printing *)

Lemma string_app_cons c (s t : string) : String c s +:+ t = String c (s +:+ t).
Proof. reflexivity. Qed.

Lemma string_app_nil (t : string) : "" +:+ t = t.
Proof. reflexivity. Qed.

Lemma string_app_assoc (s1 s2 s3 : string) :
  (s1 +:+ s2) +:+ s3 = s1 +:+ (s2 +:+ s3).
Proof.
  induction s1 as [|c s1 IH]; [done|].
  rewrite !string_app_cons. by f_equal.
Qed.

(** [print_array] appends one line, and leaves what was written. *)
Lemma print_array_line (a : list Z) : ∀ out,
  print_array a out = out +:+ line a.
Proof.
  unfold print_array. induction a as [|v a IH]; intros out; [done|].
  cbn [fold_left]. rewrite IH.
  change (line (v :: a)) with (show_int v +:+ " " +:+ line a).
  by rewrite !string_app_assoc.
Qed.

Lemma uint_blank_free (d : Decimal.uint) :
  blank_free (DecimalString.NilEmpty.string_of_uint d).
Proof. induction d; simpl; done. Qed.

Lemma show_int_blank_free (v : Z) :
  blank_free (show_int v) ∧ show_int v ≠ "".
Proof.
  unfold show_int, DecimalString.NilZero.string_of_int,
    DecimalString.NilZero.string_of_uint.
  destruct (Z.to_int v) as [d|d].
  - pose proof (uint_blank_free d). by destruct d.
  - pose proof (uint_blank_free d). by destruct d.
Qed.

Lemma show_int_inj (v w : Z) : show_int v = show_int w → v = w.
Proof.
  unfold show_int. intros Heq.
  assert (Hnn : ∀ z, Z.to_int z ≠ Decimal.Pos Decimal.Nil ∧
                     Z.to_int z ≠ Decimal.Neg Decimal.Nil).
  { intros [|q|q]; simpl; split; try done;
      intros [= Hq]; by apply DecimalPos.Unsigned.to_uint_nonnil in Hq. }
  apply DecimalZ.to_int_inj.
  apply (f_equal DecimalString.NilZero.int_of_string) in Heq.
  rewrite !DecimalString.NilZero.isi in Heq by apply Hnn.
  by injection Heq.
Qed.

(** Two texts that go on after their first space are the same up to it
    and after it. *)
Lemma split_at_space (s1 : string) : ∀ s2 t1 t2,
  blank_free s1 → blank_free s2 →
  s1 +:+ " " +:+ t1 = s2 +:+ " " +:+ t2 → s1 = s2 ∧ t1 = t2.
Proof.
  induction s1 as [|c s1 IH]; intros [|c' s2] t1 t2 H1 H2 Heq;
    rewrite ?string_app_cons, ?string_app_nil in Heq; cbn [blank_free] in *.
  - by injection Heq.
  - injection Heq as <- _. by destruct H2.
  - injection Heq as -> _. by destruct H1.
  - injection Heq as -> Heq. destruct H1 as (_ & _ & H1), H2 as (_ & _ & H2).
    destruct (IH s2 t1 t2 H1 H2 Heq) as [-> ->]. done.
Qed.

Lemma line_inj (a : list Z) : ∀ b, line a = line b → a = b.
Proof.
  induction a as [|v a IH]; intros [|w b] Heq; cbn [line foldr] in Heq.
  - done.
  - destruct (show_int_blank_free w) as [Hb Hne].
    destruct (show_int w) as [|c s]; [done|].
    rewrite string_app_cons in Heq. injection Heq as <- _. by destruct Hb as (_ & ? & _).
  - destruct (show_int_blank_free v) as [Hb Hne].
    destruct (show_int v) as [|c s]; [done|].
    rewrite string_app_cons in Heq. injection Heq as -> _. by destruct Hb as (_ & ? & _).
  - destruct (show_int_blank_free v) as [Hv _].
    destruct (show_int_blank_free w) as [Hw _].
    apply split_at_space in Heq as [Hvw Hab]; [|done..].
    apply show_int_inj in Hvw as ->. f_equal. by apply IH.
Qed.

(** * Further properties, stated *)

Section Extras.
Context {T : Type} `{Elem T}.

#[local] Existing Instance le_key_trans.
#[local] Existing Instance le_key_dec.

(** X1.  [bubble_sort] keeps the elements of one key in the order they had
    in the input: a pass exchanges two neighbours only when the first is
    strictly above the second. *)
Theorem X1_bubble_stable (a : list T) (fuel : nat) :
  a ≠ [] → fits_int a → (length a + 1 ≤ fuel)%nat →
  ∃ s, run bubble_sort fuel a = Ok s ∧ same_order_of_equals a (arr s).
Proof.
  intros Ha Hfit Hf.
  destruct (bubble_sort_counts a fuel Ha (fits_int_size a Hfit) Hf)
    as (s & Hrun & Hst & _).
  by exists s.
Qed.

(** X2.  The number of calls of [std::swap] in [bubble_sort] is the number
    of inversions of the input: the pairs of positions whose elements are
    out of order. *)
Theorem X2_bubble_swaps_are_inversions (a : list T) (fuel : nat) :
  a ≠ [] → fits_int a → (length a + 1 ≤ fuel)%nat →
  ∃ s, run bubble_sort fuel a = Ok s ∧ nswap s = inversions a.
Proof.
  intros Ha Hfit Hf.
  destruct (bubble_sort_counts a fuel Ha (fits_int_size a Hfit) Hf)
    as (s & Hrun & _ & Hw & _).
  by exists s.
Qed.

(** X3.  [bubble_sort] on an array of length [n >= 1] makes between [1]
    and [n] passes and between [n - 1] and [n * (n - 1) / 2] comparisons;
    it makes a single pass exactly when the input is in order. *)
Theorem X3_bubble_passes (a : list T) (fuel : nat) :
  a ≠ [] → fits_int a → (length a + 1 ≤ fuel)%nat →
  ∃ s, run bubble_sort fuel a = Ok s ∧
       (1 ≤ npass s ≤ length a)%nat ∧
       (length a - 1 ≤ ncmp s)%nat ∧
       (2 * ncmp s ≤ length a * (length a - 1))%nat ∧
       (npass s = 1%nat ↔ sorted a).
Proof.
  intros Ha Hfit Hf.
  destruct (bubble_sort_counts a fuel Ha (fits_int_size a Hfit) Hf)
    as (s & Hrun & _ & _ & Hc1 & Hc2 & Hp & Hone).
  by exists s.
Qed.

(** X4.  On an array that is in order, [selection_sort] makes no swap and
    leaves the array as it is, after its [n * (n - 1) / 2] comparisons:
    [min] moves only to a strictly lesser element. *)
Theorem X4_selection_sorted_input (a : list T) (fuel : nat) :
  sorted a → fits_int a → (length a + 1 ≤ fuel)%nat →
  run selection_sort fuel a
  = Ok (State a (length a * (length a - 1) / 2) 0 0).
Proof. apply selection_sort_sorted. Qed.

(** X5.  [selection_sort] does not keep the order of equal keys: two
    distinct elements of one key, followed by an element of a lesser key,
    come out in the other order. *)
Theorem X5_selection_not_stable (x y z : T) (fuel : nat) :
  x ≠ y → key x = key y → key z < key x →
  ∃ s, run selection_sort (4 + fuel) [x; y; z] = Ok s ∧
       arr s = [z; y; x] ∧
       ¬ same_order_of_equals [x; y; z] (arr s).
Proof.
  intros Hne Hxy Hzx. eexists. split; [by apply selection_sort_swaps_equals|].
  cbn [arr]. split; [done|]. intros Hst. specialize (Hst (key x)).
  rewrite !filter_cons, !filter_nil in Hst.
  repeat case_decide; try lia. by injection Hst.
Qed.

(** X6.  [insertion_sort] returns exactly on the arrays whose first element
    is not above any other; on every other array, the empty one included,
    it reads the array out of range. *)
Theorem X6_insertion_outcome (a : list T) (fuel : nat) :
  fits_int a → (2 * length a + 1 ≤ fuel)%nat →
  (first_is_least a ↔ ∃ s, run insertion_sort fuel a = Ok s) ∧
  (¬ first_is_least a ↔ run insertion_sort fuel a = OutOfRange).
Proof.
  intros Hfit Hf. apply insertion_sort_outcome; [by apply fits_int_size|done].
Qed.

(** X7.  When [insertion_sort] returns, it has made [n - 1] comparisons and
    one more for each inversion of the input, and no call of
    [std::swap]. *)
Theorem X7_insertion_comparisons (a : list T) (fuel : nat) :
  first_is_least a → fits_int a → (2 * length a ≤ fuel)%nat →
  ∃ s, run insertion_sort fuel a = Ok s ∧
       ncmp s = (length a - 1 + inversions a)%nat ∧ nswap s = 0%nat.
Proof.
  intros Hmin Hfit Hf. apply insertion_sort_counts; [done| |done].
  by apply fits_int_size.
Qed.

(** X8.  The three sorts are interchangeable on the keys: each returns the
    keys of the input in the order of a reference sort. *)
Theorem X8_sorts_agree (a : list T) :
  fits_int a →
  (a ≠ [] → ∀ fuel, (length a + 1 ≤ fuel)%nat →
     ∃ s, run bubble_sort fuel a = Ok s ∧
          key <$> arr s = merge_sort Z.le (key <$> a)) ∧
  (∀ fuel, (length a + 1 ≤ fuel)%nat →
     ∃ s, run selection_sort fuel a = Ok s ∧
          key <$> arr s = merge_sort Z.le (key <$> a)) ∧
  (first_is_least a → ∀ fuel, (2 * length a ≤ fuel)%nat →
     ∃ s, run insertion_sort fuel a = Ok s ∧
          key <$> arr s = merge_sort Z.le (key <$> a)).
Proof.
  intros Hfit. pose proof (fits_int_size a Hfit) as Hsz.
  split; [|split].
  - intros Ha fuel Hf.
    destruct (bubble_sort_correct a fuel) as (s & Hrun & Hp & Hs); try done.
    exists s. split; [done|]. by apply sorted_keys.
  - intros fuel Hf.
    destruct (selection_sort_correct a fuel) as (s & Hrun & Hp & Hs & _);
      try done.
    exists s. split; [done|]. by apply sorted_keys.
  - intros (p0 & rest & -> & Hmin)%first_is_least_cons fuel Hf.
    destruct (insertion_sort_correct p0 rest fuel) as (s & Hrun & Hp & Hs & _);
      try done.
    exists s. split; [done|]. by apply sorted_keys.
Qed.

(** X9.  [bubble_sort] and [insertion_sort] return the same array, element
    by element and not only key by key, whenever [insertion_sort]
    returns. *)
Theorem X9_bubble_insertion_same_array (a : list T) (fuel : nat) :
  first_is_least a → fits_int a → (2 * length a + 1 ≤ fuel)%nat →
  ∃ sb si, run bubble_sort fuel a = Ok sb ∧
           run insertion_sort fuel a = Ok si ∧
           arr sb = arr si.
Proof.
  intros Hmin Hfit Hf. pose proof (fits_int_size a Hfit) as Hsz.
  pose proof Hmin as (p0 & rest & -> & Hle)%first_is_least_cons.
  destruct (bubble_sort_correct (p0 :: rest) fuel)
    as (sb & Hrunb & _ & Hsb); [done|done|cbn [length] in *; lia|].
  destruct (bubble_sort_counts (p0 :: rest) fuel)
    as (sb' & Hrunb' & Hstb & _); [done|done|cbn [length] in *; lia|].
  rewrite Hrunb in Hrunb'. injection Hrunb' as <-.
  destruct (insertion_sort_correct p0 rest fuel)
    as (si & Hruni & _ & Hsi & Hsti); [done|done|lia|].
  exists sb, si. split; [done|]. split; [done|].
  apply stable_sorted_unique; [by apply sorted_StronglySorted..|].
  intros v. by rewrite Hstb, Hsti.
Qed.

(** X10.  Sorting twice is sorting once: each sort, run on the array it has
    returned, returns that array. *)
Theorem X10_idempotent (a : list T) :
  fits_int a →
  (a ≠ [] → ∀ fuel, (length a + 1 ≤ fuel)%nat →
     ∃ s s', run bubble_sort fuel a = Ok s ∧
             run bubble_sort fuel (arr s) = Ok s' ∧ arr s' = arr s) ∧
  (∀ fuel, (length a + 1 ≤ fuel)%nat →
     ∃ s s', run selection_sort fuel a = Ok s ∧
             run selection_sort fuel (arr s) = Ok s' ∧ arr s' = arr s) ∧
  (first_is_least a → ∀ fuel, (2 * length a ≤ fuel)%nat →
     ∃ s s', run insertion_sort fuel a = Ok s ∧
             run insertion_sort fuel (arr s) = Ok s' ∧ arr s' = arr s).
Proof.
  intros Hfit. pose proof (fits_int_size a Hfit) as Hsz.
  split; [|split].
  - intros Ha fuel Hf.
    destruct (bubble_sort_correct a fuel) as (s & Hrun & Hp & Hs); try done.
    pose proof (Permutation_length Hp) as Hlen.
    eexists s, _. split; [done|]. split.
    + apply bubble_sort_sorted; [|done|lia|lia].
      intros Hnil. rewrite Hnil in Hp. by apply Permutation_nil_l in Hp.
    + reflexivity.
  - intros fuel Hf.
    destruct (selection_sort_correct a fuel) as (s & Hrun & Hp & Hs & _);
      try done.
    pose proof (Permutation_length Hp) as Hlen.
    eexists s, _. split; [done|]. split.
    + apply selection_sort_sorted; [done| |lia].
      unfold fits_int in *. lia.
    + reflexivity.
  - intros (p0 & rest & -> & Hmin)%first_is_least_cons fuel Hf.
    destruct (insertion_sort_correct p0 rest fuel) as (s & Hrun & Hp & Hs & _);
      try done.
    pose proof (Permutation_length Hp) as Hlen.
    eexists s, _. split; [done|]. split.
    + apply insertion_sort_sorted; [|done|lia|lia].
      intros Hnil. rewrite Hnil in Hp. by apply Permutation_nil_l in Hp.
    + reflexivity.
Qed.

(** X11.  On an array that is in order and not empty, [insertion_sort]
    makes [n - 1] comparisons and leaves the array as it is. *)
Theorem X11_insertion_sorted_input (a : list T) (fuel : nat) :
  a ≠ [] → sorted a → fits_int a → (2 * length a ≤ fuel)%nat →
  run insertion_sort fuel a = Ok (State a (length a - 1) 0 0).
Proof.
  intros Ha Hs Hfit Hf. apply insertion_sort_sorted; try done.
  by apply fits_int_size.
Qed.

End Extras.

(** ** The programs *)

Lemma run_Ok_inv (sort : nat → M Z unit) fuel a s :
  run sort fuel a = Ok s → sort fuel (init a) = Ok (tt, s).
Proof.
  unfold run. destruct (sort fuel (init a)) as [[[] s']| |]; [|done..].
  by intros [= ->].
Qed.

Lemma program_returns (sort : nat → M Z unit) fuel a s :
  run sort fuel a = Ok s →
  program sort fuel a
  = ("Original array" +:+ newline +:+ line a +:+
     "Sorted array" +:+ newline +:+ line (arr s), Ok 0).
Proof.
  intros Hrun%run_Ok_inv. unfold program. rewrite Hrun.
  by rewrite !print_array_line, !string_app_assoc.
Qed.

Lemma sorted_int_array (a b : list Z) :
  b ≡ₚ a → sorted b → b = merge_sort Z.le a.
Proof.
  intros Hp Hs. pose proof (sorted_keys a b Hp Hs) as Hk.
  unfold key, int_elem in Hk. by rewrite !list_fmap_id in Hk.
Qed.

(** X12.  [print_array] appends one line to what was written, and the line
    tells the array: two arrays are printed alike only when they are the
    same. *)
Theorem X12_print_array (a b : list Z) (out : string) :
  print_array a out = out +:+ line a ∧
  (print_array a out = print_array b out ↔ a = b).
Proof.
  split; [apply print_array_line|]. split; [|by intros ->].
  rewrite !print_array_line. intros Heq%(inj (String.app out)).
  by apply line_inj.
Qed.

(** X13.  The three programs write the same text and return [0], on every
    initial array on which [insertion_sort] returns: the array as it is
    given and, under the second heading, the array in order. *)
Theorem X13_programs_agree (a : list Z) (fuel : nat) :
  first_is_least a → fits_int a → (2 * length a + 1 ≤ fuel)%nat →
  let text := "Original array" +:+ newline +:+ line a +:+
              "Sorted array" +:+ newline +:+ line (merge_sort Z.le a) in
  program bubble_sort fuel a = (text, Ok 0) ∧
  program selection_sort fuel a = (text, Ok 0) ∧
  program insertion_sort fuel a = (text, Ok 0).
Proof.
  intros Hmin Hfit Hf text. pose proof (fits_int_size a Hfit) as Hsz.
  pose proof Hmin as (p0 & rest & -> & Hle)%first_is_least_cons.
  destruct (bubble_sort_correct (p0 :: rest) fuel)
    as (sb & Hrunb & Hpb & Hsb); [done|done|cbn [length] in *; lia|].
  destruct (selection_sort_correct (p0 :: rest) fuel)
    as (ss & Hruns & Hps & Hss & _); [done|cbn [length] in *; lia|].
  destruct (insertion_sort_correct p0 rest fuel)
    as (si & Hruni & Hpi & Hsi & _); [done|done|lia|].
  rewrite (program_returns _ _ _ _ Hrunb), (program_returns _ _ _ _ Hruns),
    (program_returns _ _ _ _ Hruni).
  rewrite (sorted_int_array _ _ Hpb Hsb), (sorted_int_array _ _ Hps Hss),
    (sorted_int_array _ _ Hpi Hsi).
  done.
Qed.

(** ** The further properties on the arrays of the source *)

Lemma sample_not_empty : sample ≠ [].
Proof. discriminate. Qed.

Lemma X1_witness :
  sample_tagged ≠ [] ∧ fits_int sample_tagged ∧
  ∃ s, run bubble_sort 7 sample_tagged = Ok s ∧
       same_order_of_equals sample_tagged (arr s).
Proof.
  split; [discriminate|]. split; [exact fits_int_sample_tagged|].
  apply (X1_bubble_stable sample_tagged 7);
    [discriminate|exact fits_int_sample_tagged|simpl; lia].
Defined.

Lemma inversions_sample : inversions sample = 22%nat.
Proof. by vm_compute. Qed.

Lemma X2_witness :
  sample ≠ [] ∧ fits_int sample ∧
  ∃ s, run bubble_sort 12 sample = Ok s ∧ nswap s = 22%nat.
Proof.
  split; [exact sample_not_empty|]. split; [exact fits_int_sample|].
  rewrite <-inversions_sample.
  apply (X2_bubble_swaps_are_inversions sample 12);
    [exact sample_not_empty|exact fits_int_sample|simpl; lia].
Defined.

Lemma X3_witness :
  sample ≠ [] ∧ fits_int sample ∧
  ∃ s, run bubble_sort 12 sample = Ok s ∧
       (1 ≤ npass s ≤ 11)%nat ∧ (10 ≤ ncmp s)%nat ∧ (2 * ncmp s ≤ 110)%nat ∧
       (npass s = 1%nat ↔ sorted sample).
Proof.
  split; [exact sample_not_empty|]. split; [exact fits_int_sample|].
  apply (X3_bubble_passes sample 12);
    [exact sample_not_empty|exact fits_int_sample|simpl; lia].
Defined.

Lemma X4_witness :
  sorted sample_sorted ∧ fits_int sample_sorted ∧
  run selection_sort 12 sample_sorted = Ok (State sample_sorted 55 0 0).
Proof.
  split; [exact sorted_sample_sorted|]. split; [exact fits_int_sample_sorted|].
  apply (X4_selection_sorted_input sample_sorted 12);
    [exact sorted_sample_sorted|exact fits_int_sample_sorted|simpl; lia].
Defined.

Lemma X5_witness :
  ∃ s, run selection_sort 4 [(2, 0%nat); (2, 1%nat); (1, 2%nat)] = Ok s ∧
       arr s = [(1, 2%nat); (2, 1%nat); (2, 0%nat)] ∧
       ¬ same_order_of_equals [(2, 0%nat); (2, 1%nat); (1, 2%nat)] (arr s).
Proof.
  apply (X5_selection_not_stable (2, 0%nat) (2, 1%nat) (1, 2%nat) 0);
    [discriminate|reflexivity|reflexivity].
Defined.

Lemma X6_witness :
  fits_int sample ∧ fits_int sample_5_first ∧
  (first_is_least sample ↔ ∃ s, run insertion_sort 23 sample = Ok s) ∧
  (¬ first_is_least sample_5_first
   ↔ run insertion_sort 23 sample_5_first = OutOfRange).
Proof.
  assert (Hfit : fits_int sample_5_first) by by_computation.
  split; [exact fits_int_sample|]. split; [exact Hfit|]. split.
  - apply (X6_insertion_outcome sample 23); [exact fits_int_sample|simpl; lia].
  - apply (X6_insertion_outcome sample_5_first 23); [exact Hfit|simpl; lia].
Defined.

Lemma X7_witness :
  first_is_least sample ∧ fits_int sample ∧
  ∃ s, run insertion_sort 22 sample = Ok s ∧
       ncmp s = (10 + 22)%nat ∧ nswap s = 0%nat.
Proof.
  split; [exact first_is_least_sample|]. split; [exact fits_int_sample|].
  rewrite <-inversions_sample.
  apply (X7_insertion_comparisons sample 22);
    [exact first_is_least_sample|exact fits_int_sample|simpl; lia].
Defined.

Lemma X8_witness :
  fits_int sample ∧
  (∃ s, run bubble_sort 12 sample = Ok s ∧ key <$> arr s = sample_sorted) ∧
  (∃ s, run selection_sort 12 sample = Ok s ∧ key <$> arr s = sample_sorted) ∧
  (∃ s, run insertion_sort 22 sample = Ok s ∧ key <$> arr s = sample_sorted).
Proof.
  destruct (X8_sorts_agree sample fits_int_sample) as (Hb & Hs & Hi).
  split; [exact fits_int_sample|].
  split; [apply Hb; [exact sample_not_empty|simpl; lia]|].
  split; [apply Hs; simpl; lia|].
  apply Hi; [exact first_is_least_sample|simpl; lia].
Defined.

Lemma X9_witness :
  first_is_least sample_tagged ∧ fits_int sample_tagged ∧
  ∃ sb si, run bubble_sort 13 sample_tagged = Ok sb ∧
           run insertion_sort 13 sample_tagged = Ok si ∧
           arr sb = arr si.
Proof.
  split; [exact first_is_least_sample_tagged|].
  split; [exact fits_int_sample_tagged|].
  apply (X9_bubble_insertion_same_array sample_tagged 13);
    [exact first_is_least_sample_tagged|exact fits_int_sample_tagged|simpl; lia].
Defined.

Lemma X10_witness :
  fits_int sample ∧
  (∃ s s', run bubble_sort 12 sample = Ok s ∧
           run bubble_sort 12 (arr s) = Ok s' ∧ arr s' = arr s) ∧
  (∃ s s', run selection_sort 12 sample = Ok s ∧
           run selection_sort 12 (arr s) = Ok s' ∧ arr s' = arr s) ∧
  (∃ s s', run insertion_sort 22 sample = Ok s ∧
           run insertion_sort 22 (arr s) = Ok s' ∧ arr s' = arr s).
Proof.
  destruct (X10_idempotent sample fits_int_sample) as (Hb & Hs & Hi).
  split; [exact fits_int_sample|].
  split; [apply Hb; [exact sample_not_empty|simpl; lia]|].
  split; [apply Hs; simpl; lia|].
  apply Hi; [exact first_is_least_sample|simpl; lia].
Defined.

Lemma X11_witness :
  sample_sorted ≠ [] ∧ sorted sample_sorted ∧ fits_int sample_sorted ∧
  run insertion_sort 22 sample_sorted = Ok (State sample_sorted 10 0 0).
Proof.
  split; [discriminate|]. split; [exact sorted_sample_sorted|].
  split; [exact fits_int_sample_sorted|].
  apply (X11_insertion_sorted_input sample_sorted 22);
    [discriminate|exact sorted_sample_sorted|exact fits_int_sample_sorted|
     simpl; lia].
Defined.

Lemma X13_witness :
  first_is_least sample ∧ fits_int sample ∧
  let text := "Original array" +:+ newline +:+ line sample +:+
              "Sorted array" +:+ newline +:+ line sample_sorted in
  main_bubble 23 = (text, Ok 0) ∧
  main_selection 23 = (text, Ok 0) ∧
  main_insertion 23 = (text, Ok 0).
Proof.
  split; [exact first_is_least_sample|]. split; [exact fits_int_sample|].
  apply (X13_programs_agree sample 23);
    [exact first_is_least_sample|exact fits_int_sample|simpl; lia].
Defined.
